(** * debounce-toolkit: the debounce controller and its timer state machine

    A shallow embedding of [src/debounce.ts] (and of the [DebounceMode] enum of
    the package's type declarations).

    - [JS]: the fragment of JavaScript values that the argument validation of
      [debounce] inspects ([typeof], [??], [?.], [<], [Array.prototype.includes]).
    - [Section Controller]: the closure state of one debounced function
      ([timeoutId], [lastArgs], [lastThis], [leadingCalled]), the host's timer
      registry ([setTimeout] / [clearTimeout]) with a virtual clock, and the
      operations [debounced], [cancel], [flush], [pending] written in a small
      state-and-exception monad so that they read like the source.

    Modelling conventions.
    - Time is a natural number of milliseconds on a virtual clock; a timer
      scheduled with delay [d] at time [t] runs when the clock reaches [t + d],
      before anything else that happens at or after that instant.
    - Timer handles are positive numbers, hence always truthy.
    - The wrapped function [fn] is opaque: all that matters here is that each
      [fn.apply] is recorded and either returns or throws.  Whether it throws
      may depend on everything it has been called with so far.  It does not
      call back into the debounced function. *)

From Stdlib Require Import ZArith List Bool String Lia PeanoNat.
Import ListNotations.

Set Implicit Arguments.

(** ** JavaScript values seen by the validation code *)

Module JS.

Inductive number : Type :=
| NaN
| NegInfinity
| PosInfinity
| Finite (z : Z).

(** Objects carry their own properties; [callable] objects are functions. *)
#[warnings="-register-all"]
Inductive value : Type :=
| Undefined
| Null
| Boolean (b : bool)
| Number (n : number)
| String (s : string)
| Object (callable : bool) (props : list (string * value)).

Definition typeof (v : value) : string :=
  match v with
  | Undefined => "undefined"
  | Null => "object"
  | Boolean _ => "boolean"
  | Number _ => "number"
  | String _ => "string"
  | Object true _ => "function"
  | Object false _ => "object"
  end.

Definition nullish (v : value) : bool :=
  match v with
  | Undefined | Null => true
  | _ => false
  end.

(** [a ?? b] *)
Definition coalesce (a b : value) : value :=
  if nullish a then b else a.

Fixpoint own_property (k : string) (props : list (string * value)) : option value :=
  match props with
  | [] => None
  | (k', v) :: rest => if String.eqb k k' then Some v else own_property k rest
  end.

(** [v?.k]: [undefined] on a nullish base; a primitive has no such property
    (the built-in prototypes define none of the names read here). *)
Definition optional_get (v : value) (k : string) : value :=
  match v with
  | Object _ props =>
      match own_property k props with
      | Some x => x
      | None => Undefined
      end
  | _ => Undefined
  end.

(** [n < 0] on numbers: false for [NaN]. *)
Definition lt_zero (n : number) : bool :=
  match n with
  | Finite z => (z <? 0)%Z
  | NegInfinity => true
  | NaN | PosInfinity => false
  end.

(** [strings.includes(v)] for an array of string primitives: only an equal
    string primitive is found. *)
Definition includes (xs : list string) (v : value) : bool :=
  match v with
  | String s => existsb (String.eqb s) xs
  | _ => false
  end.

End JS.

(** ** The mode enum *)

Inductive DebounceMode : Type :=
| TRAILING
| LEADING
| BOTH.

Definition mode_string (m : DebounceMode) : string :=
  match m with
  | TRAILING => "trailing"
  | LEADING => "leading"
  | BOTH => "both"
  end.

(** [Object.values(DebounceMode)] *)
Definition DebounceMode_values : list string :=
  map mode_string [TRAILING; LEADING; BOTH].

(** [a === b] on modes *)
Definition mode_eqb (a b : DebounceMode) : bool :=
  match a, b with
  | TRAILING, TRAILING | LEADING, LEADING | BOTH, BOTH => true
  | _, _ => false
  end.

Inductive TypeError : Type :=
| MkTypeError (message : string).

(** ** The controller *)

Section Controller.

(** Receivers ([this]) and argument lists of the wrapped function. *)
Variables Recv Args : Type.

Record invocation : Type := mkInvocation {
  inv_time : nat;
  inv_this : option Recv;
  inv_args : option Args
}.

(** The four [let] variables captured by the closures. *)
Record state : Type := mkState {
  timeoutId : option positive;
  lastArgs : option Args;
  lastThis : option Recv;
  leadingCalled : bool
}.

Definition initial_state : state :=
  {| timeoutId := None; lastArgs := None; lastThis := None; leadingCalled := false |}.

Definition set_timeoutId (x : option positive) (s : state) : state :=
  {| timeoutId := x; lastArgs := lastArgs s; lastThis := lastThis s;
     leadingCalled := leadingCalled s |}.

Definition set_lastArgs (x : option Args) (s : state) : state :=
  {| timeoutId := timeoutId s; lastArgs := x; lastThis := lastThis s;
     leadingCalled := leadingCalled s |}.

Definition set_lastThis (x : option Recv) (s : state) : state :=
  {| timeoutId := timeoutId s; lastArgs := lastArgs s; lastThis := x;
     leadingCalled := leadingCalled s |}.

Definition set_leadingCalled (x : bool) (s : state) : state :=
  {| timeoutId := timeoutId s; lastArgs := lastArgs s; lastThis := lastThis s;
     leadingCalled := x |}.

(** *** Construction: [debounce(fn, wait, modeOrOptions)] *)

Record Controller : Type := mkController {
  c_fn : JS.value;
  c_wait : JS.value;
  c_mode : JS.value;
  c_state : state
}.

Definition debounce (fn wait modeOrOptions : JS.value) : TypeError + Controller :=
  let wait := JS.coalesce wait (JS.Number (JS.Finite 0)) in
  let mode :=
    if String.eqb (JS.typeof modeOrOptions) "string"
    then modeOrOptions
    else JS.coalesce (JS.optional_get modeOrOptions "mode")
                     (JS.String (mode_string TRAILING)) in
  if negb (String.eqb (JS.typeof fn) "function") then
    inl (MkTypeError "Expected fn to be a function")
  else if negb (String.eqb (JS.typeof wait) "number")
          || match wait with JS.Number n => JS.lt_zero n | _ => false end then
    inl (MkTypeError "Expected wait to be a non-negative number")
  else if negb (JS.includes DebounceMode_values mode) then
    inl (MkTypeError "Invalid debounce mode")
  else
    inr {| c_fn := fn; c_wait := wait; c_mode := mode; c_state := initial_state |}.

(** The [wait] arguments that the validation refuses; [undefined] and [null]
    stand for the default and every other number, [NaN] included, passes. *)
Inductive refused_wait : JS.value -> Prop :=
| refused_negative (z : Z) : (z < 0)%Z -> refused_wait (JS.Number (JS.Finite z))
| refused_neg_infinity : refused_wait (JS.Number JS.NegInfinity)
| refused_boolean (b : bool) : refused_wait (JS.Boolean b)
| refused_string (s : string) : refused_wait (JS.String s)
| refused_object (c : bool) (props : list (string * JS.value)) :
    refused_wait (JS.Object c props).

(** [supplies modeOrOptions m]: the third argument supplies the mode value
    [m], either bare (it is a string) or as its own [mode] property when that
    is neither [null] nor [undefined]. *)
Inductive supplies : JS.value -> JS.value -> Prop :=
| supplies_bare (s : string) : supplies (JS.String s) (JS.String s)
| supplies_option (c : bool) (props : list (string * JS.value)) (m : JS.value) :
    JS.own_property "mode" props = Some m ->
    JS.nullish m = false ->
    supplies (JS.Object c props) m.

Definition recognised (m : JS.value) : Prop :=
  exists k : DebounceMode, m = JS.String (mode_string k).

(** The value of the local constant [mode] of [debounce]. *)
Definition resolved_mode (modeOrOptions : JS.value) : JS.value :=
  if String.eqb (JS.typeof modeOrOptions) "string"
  then modeOrOptions
  else JS.coalesce (JS.optional_get modeOrOptions "mode")
                   (JS.String (mode_string TRAILING)).

(** *** The host: a virtual clock and the timer registry *)

(** A scheduled callback.  The arrow function passed to [setTimeout] closes
    over the two constants computed by the call that created it. *)
Record timer : Type := mkTimer {
  timer_id : positive;
  deadline : nat;
  shouldCallLeading : bool;
  shouldCallTrailing : bool
}.

Record world : Type := mkWorld {
  now : nat;
  next_id : positive;
  queue : list timer;
  vars : state;
  calls : list invocation
}.

Definition initial_world : world :=
  {| now := 0; next_id := 1%positive; queue := []; vars := initial_state; calls := [] |}.

Definition set_now (t : nat) (w : world) : world :=
  {| now := t; next_id := next_id w; queue := queue w; vars := vars w; calls := calls w |}.

Definition set_queue (q : list timer) (w : world) : world :=
  {| now := now w; next_id := next_id w; queue := q; vars := vars w; calls := calls w |}.

Definition set_vars (s : state) (w : world) : world :=
  {| now := now w; next_id := next_id w; queue := queue w; vars := s; calls := calls w |}.

(** *** Computations that may throw, keeping the mutations made so far *)

Inductive completion (A : Type) : Type :=
| Normal (a : A)
| Thrown.
Arguments Thrown {A}.

Definition M (A : Type) : Type := world -> world * completion A.

Definition ret {A} (a : A) : M A := fun w => (w, Normal a).

Definition bind {A B} (c : M A) (k : A -> M B) : M B :=
  fun w =>
    match c w with
    | (w', Normal a) => k a w'
    | (w', Thrown) => (w', Thrown)
    end.

Definition read {A} (field : state -> A) : M A :=
  fun w => (w, Normal (field (vars w))).

Definition assign (update : state -> state) : M unit :=
  fun w => (set_vars (update (vars w)) w, Normal tt).

(** The wrapped function: [fn_throws history this args] tells whether the
    call [fn.apply(this, args)] throws, given the calls made before it. *)
Variable fn_throws : list invocation -> option Recv -> option Args -> bool.
Variable wait : nat.
Variable mode : DebounceMode.

(** [fn.apply(thisArg, args)] *)
Definition fn_apply (thisArg : option Recv) (args : option Args) : M unit :=
  fun w =>
    let w' := {| now := now w; next_id := next_id w; queue := queue w; vars := vars w;
                 calls := calls w ++ [mkInvocation (now w) thisArg args] |} in
    if fn_throws (calls w) thisArg args then (w', Thrown) else (w', Normal tt).

(** [clearTimeout(h)]: forgets the timer; nothing happens for a handle that
    already ran or was cleared. *)
Definition clearTimeout (h : positive) : M unit :=
  fun w => (set_queue (filter (fun t => negb (Pos.eqb (timer_id t) h)) (queue w)) w,
            Normal tt).

(** [setTimeout(callback, delay)], the callback given by its captured constants. *)
Definition setTimeout (lead trail : bool) (delay : nat) : M positive :=
  fun w =>
    let h := next_id w in
    ({| now := now w; next_id := Pos.succ h;
        queue := queue w ++ [mkTimer h (now w + delay) lead trail];
        vars := vars w; calls := calls w |},
     Normal h).

Notation "x <- c1 ;; c2" := (bind c1 (fun x => c2))
  (at level 61, c1 at next level, right associativity).
Notation "c1 ;; c2" := (bind c1 (fun _ => c2))
  (at level 61, right associativity).

(** *** The closures of [debounce] *)

Definition cleanup : M unit :=
  id <- read timeoutId ;;
  match id with
  | Some h => clearTimeout h ;; assign (set_timeoutId None)
  | None => ret tt
  end.

(** The arrow function handed to [setTimeout], for the constants [lead] and
    [trail] captured from the scheduling call. *)
Definition timer_callback (lead trail : bool) : M unit :=
  called <- read leadingCalled ;;
  (if trail && (negb lead || called)
   then this <- read lastThis ;; args <- read lastArgs ;; fn_apply this args
   else ret tt) ;;
  assign (set_timeoutId None) ;;
  assign (set_leadingCalled false).

Definition debounced (this : Recv) (args : Args) : M unit :=
  assign (set_lastArgs (Some args)) ;;
  assign (set_lastThis (Some this)) ;;
  called <- read leadingCalled ;;
  let shouldCallLeading :=
    (mode_eqb mode LEADING || mode_eqb mode BOTH) && negb called in
  let shouldCallTrailing :=
    mode_eqb mode TRAILING || mode_eqb mode BOTH in
  cleanup ;;
  (if shouldCallLeading
   then this' <- read lastThis ;; args' <- read lastArgs ;;
        fn_apply this' args' ;;
        assign (set_leadingCalled true)
   else ret tt) ;;
  h <- setTimeout shouldCallLeading shouldCallTrailing wait ;;
  assign (set_timeoutId (Some h)).

Definition cancel : M unit :=
  cleanup ;;
  assign (set_leadingCalled false).

Definition flush : M unit :=
  id <- read timeoutId ;;
  args <- read lastArgs ;;
  match id, args with
  | Some _, Some _ =>
      cleanup ;;
      this <- read lastThis ;;
      fn_apply this args ;;
      assign (set_leadingCalled false)
  | _, _ => ret tt
  end.

Definition pending : M bool :=
  id <- read timeoutId ;;
  ret (match id with Some _ => true | None => false end).

(** *** The event loop *)

(** The timer to run next among those due by [limit]: the earliest deadline,
    the earlier registration among equal deadlines. *)
Fixpoint next_due (limit : nat) (q : list timer) : option timer :=
  match q with
  | [] => None
  | t :: rest =>
      match next_due limit rest with
      | Some u =>
          if (deadline t <=? limit) && (deadline t <=? deadline u)
          then Some t else Some u
      | None => if deadline t <=? limit then Some t else None
      end
  end.

(** Runs the due callbacks in order, moving the clock to each deadline.  A
    callback that throws ends there (the host reports the error) and the loop
    goes on.  Callbacks register no timers, so one round per queued timer is
    enough. *)
Fixpoint run_due (rounds limit : nat) (w : world) : world :=
  match rounds with
  | O => w
  | S rounds' =>
      match next_due limit (queue w) with
      | None => w
      | Some t =>
          let w1 := set_now (Nat.max (now w) (deadline t)) w in
          let w2 := fst (clearTimeout (timer_id t) w1) in
          run_due rounds' limit
            (fst (timer_callback (shouldCallLeading t) (shouldCallTrailing t) w2))
      end
  end.

(** Lets [d] milliseconds pass. *)
Definition advance (d : nat) (w : world) : world :=
  let limit := now w + d in
  set_now limit (run_due (List.length (queue w)) limit w).

(** *** Histories *)

Inductive event : Type :=
| Call (this : Recv) (args : Args)
| Cancel
| Flush
| Pending
| Advance (d : nat).

Definition step (w : world) (e : event) : world :=
  match e with
  | Call this args => fst (debounced this args w)
  | Cancel => fst (cancel w)
  | Flush => fst (flush w)
  | Pending => fst (pending w)
  | Advance d => advance d w
  end.

Definition run (es : list event) (w : world) : world :=
  fold_left step es w.

(** The receiver and arguments of the last call of a history, if any. *)
Definition latest (es : list event) : option (Recv * Args) :=
  fold_left
    (fun acc e => match e with Call this args => Some (this, args) | _ => acc end)
    es None.

(** A burst after its first call: each further call comes [gap] milliseconds
    after the previous one. *)
Definition burst (rest : list (nat * (Recv * Args))) : list event :=
  flat_map (fun c => [Advance (fst c); Call (fst (snd c)) (snd (snd c))]) rest.

Definition last_call (first : Recv * Args) (rest : list (nat * (Recv * Args)))
  : Recv * Args :=
  last (map snd rest) first.

(** *** Well-formed worlds *)

(** What holds of a timer that is still registered. *)
Definition timer_ok (w : world) (t : timer) : Prop :=
  timeoutId (vars w) = Some (timer_id t)
  /\ now w <= deadline t <= now w + wait
  /\ shouldCallTrailing t = (mode_eqb mode TRAILING || mode_eqb mode BOTH)
  /\ (shouldCallLeading t = true -> leadingCalled (vars w) = true).

(** The invariant of the controller, whatever [fn] does. *)
Definition consistent (w : world) : Prop :=
  match queue w with
  | [] => True
  | [t] => timer_ok w t
  | _ :: _ :: _ => False
  end
  /\ (timeoutId (vars w) <> None -> lastArgs (vars w) <> None)
  /\ (timeoutId (vars w) <> None -> mode <> TRAILING -> leadingCalled (vars w) = true)
  /\ (mode = TRAILING -> leadingCalled (vars w) = false).

(** What holds in addition as long as [fn] has not thrown: with no timer
    registered, no handle is kept and the leading flag is clear. *)
Definition settled (w : world) : Prop :=
  queue w = [] -> timeoutId (vars w) = None /\ leadingCalled (vars w) = false.

(** *** Derived notions used to state what the operations do *)

(** [shouldCallLeading] and [shouldCallTrailing] as a call made in [w] computes them. *)
Definition leads (w : world) : bool :=
  (mode_eqb mode LEADING || mode_eqb mode BOTH) && negb (leadingCalled (vars w)).

Definition trails : bool :=
  mode_eqb mode TRAILING || mode_eqb mode BOTH.

(** The world after the registered timer [t] has run in a well-formed world. *)
Definition fired (t : timer) (w : world) : world :=
  let thrown := trails && fn_throws (calls w) (lastThis (vars w)) (lastArgs (vars w)) in
  {| now := deadline t; next_id := next_id w; queue := [];
     vars := if thrown then vars w
             else {| timeoutId := None; lastArgs := lastArgs (vars w);
                     lastThis := lastThis (vars w); leadingCalled := false |};
     calls := if trails
              then calls w ++ [mkInvocation (deadline t) (lastThis (vars w))
                                            (lastArgs (vars w))]
              else calls w |}.

(** Right after a call that returned: the countdown has just restarted, the
    call's receiver and arguments are the recorded ones, and [history] is
    what [fn] has been called with. *)
Definition armed (w : world) (this : Recv) (args : Args)
    (history : list invocation) : Prop :=
  consistent w
  /\ calls w = history
  /\ lastThis (vars w) = Some this
  /\ lastArgs (vars w) = Some args
  /\ (exists t, queue w = [t] /\ deadline t = now w + wait)
  /\ leadingCalled (vars w) = (mode_eqb mode LEADING || mode_eqb mode BOTH).

End Controller.

Arguments Thrown {A}.
Arguments initial_state {Recv Args}.
Arguments initial_world {Recv Args}.
Arguments Cancel {Recv Args}.
Arguments Flush {Recv Args}.
Arguments Pending {Recv Args}.
Arguments Advance {Recv Args} d.

(** ** The rejection rule as the specification words it *)

(** Construction is to fail when the target is not callable, or the wait is
    not a number or is negative, or the third argument is neither one of the
    three modes nor an options object whose mode is one of them or absent; an
    omitted argument takes its default. *)
Definition specified_invalid (fn wait modeOrOptions : JS.value) : bool :=
  negb (String.eqb (JS.typeof fn) "function")
  || match wait with
     | JS.Undefined => false
     | JS.Number n => JS.lt_zero n
     | _ => true
     end
  || match modeOrOptions with
     | JS.Undefined => false
     | JS.String _ => negb (JS.includes DebounceMode_values modeOrOptions)
     | JS.Object false props =>
         match JS.own_property "mode" props with
         | None => false
         | Some m => negb (JS.includes DebounceMode_values m)
         end
     | _ => true
     end.

(** ** Sample wrapped functions, with [unit] receivers and [nat] arguments *)

Definition never_throws
  : list (invocation unit nat) -> option unit -> option nat -> bool :=
  fun _ _ _ => false.

Definition always_throws
  : list (invocation unit nat) -> option unit -> option nat -> bool :=
  fun _ _ _ => true.

(** Returns the first time it is called and throws ever after. *)
Definition throws_after_first
  : list (invocation unit nat) -> option unit -> option nat -> bool :=
  fun history _ _ => match history with [] => false | _ :: _ => true end.

(** ** Notions used to state further properties *)

(** Successive times are at least [gap] apart. *)
Fixpoint apart (gap : nat) (times : list nat) : bool :=
  match times with
  | [] => true
  | a :: rest =>
      match rest with
      | [] => true
      | b :: _ => a + gap <=? b
      end && apart gap rest
  end.

Section Pace.
Variables Recv Args : Type.

Definition is_flush (e : event Recv Args) : bool :=
  match e with Flush => true | _ => false end.

Definition is_call (e : event Recv Args) : bool :=
  match e with Call _ _ => true | _ => false end.

Definition is_cancel (e : event Recv Args) : bool :=
  match e with Cancel => true | _ => false end.

(** The time of the latest invocation (0 before the first). *)
Definition last_time (w : world Recv Args) : nat :=
  last (map (@inv_time Recv Args) (calls w)) 0.

(** The invocations so far keep the pace, and so will the one that a
    registered timer may make. *)
Definition paced (wait : nat) (w : world Recv Args) : Prop :=
  apart wait (map (@inv_time Recv Args) (calls w)) = true
  /\ last_time w <= now w
  /\ forall t, In t (queue w) -> last_time w + wait <= deadline t.

(** In LEADING mode: with the leading flag clear, the latest invocation is
    at least [wait] old. *)
Definition rested (wait : nat) (w : world Recv Args) : Prop :=
  calls w <> [] -> leadingCalled (vars w) = false -> last_time w + wait <= now w.
Definition count_calls (es : list (event Recv Args)) : nat :=
  List.length (filter is_call es).

(** Invocations made so far, plus the one a registered timer will make. *)
Definition committed (mode : DebounceMode) (w : world Recv Args) : nat :=
  List.length (calls w) + (if trails mode then List.length (queue w) else 0).
End Pace.

(** How many invocations one call can cause. *)
Definition per_call (mode : DebounceMode) : nat :=
  match mode with BOTH => 2 | _ => 1 end.

(** * Laws of the operations *)

(** Closes a goal that is an instance [T] of a proved statement, both sides
    evaluated. *)
Ltac by_instance T :=
  let H := fresh "H" in
  pose proof T as H; vm_compute in H; vm_compute; exact H.

(** Unfolds the closures down to plain functions on worlds. *)
Ltac unfold_ops :=
  unfold debounced, flush, cancel, pending, timer_callback, cleanup,
    bind, read, assign, ret, fn_apply, clearTimeout, setTimeout,
    set_vars, set_queue, set_now,
    set_timeoutId, set_lastArgs, set_lastThis, set_leadingCalled.

Section Laws.

Variables Recv Args : Type.
Variable fn_throws : list (invocation Recv Args) -> option Recv -> option Args -> bool.
Variable wait : nat.
Variable mode : DebounceMode.

#[local] Abbreviation world := (world Recv Args).
#[local] Abbreviation consistent := (consistent wait mode).
#[local] Abbreviation debounced := (debounced fn_throws wait mode).
#[local] Abbreviation flush := (@flush Recv Args fn_throws).
#[local] Abbreviation advance := (@advance Recv Args fn_throws).
#[local] Abbreviation step := (step fn_throws wait mode).
#[local] Abbreviation run := (run fn_throws wait mode).
#[local] Abbreviation leads := (@leads Recv Args mode).
#[local] Abbreviation trails := (trails mode).
#[local] Abbreviation fired := (fired fn_throws mode).
#[local] Abbreviation armed := (armed wait mode).
#[local] Abbreviation init := (@initial_world Recv Args).

(** *** What each operation does to a well-formed world, in closed form *)

Lemma debounced_direct (this : Recv) (args : Args) (w : world) :
  consistent w ->
  debounced this args w =
  if leads w && fn_throws (calls w) (Some this) (Some args) then
    ({| now := now w; next_id := next_id w; queue := [];
        vars := {| timeoutId := None; lastArgs := Some args; lastThis := Some this;
                   leadingCalled := leadingCalled (vars w) |};
        calls := calls w ++ [mkInvocation (now w) (Some this) (Some args)] |}, Thrown)
  else
    ({| now := now w; next_id := Pos.succ (next_id w);
        queue := [mkTimer (next_id w) (now w + wait) (leads w) trails];
        vars := {| timeoutId := Some (next_id w); lastArgs := Some args;
                   lastThis := Some this;
                   leadingCalled := leads w || leadingCalled (vars w) |};
        calls := if leads w
                 then calls w ++ [mkInvocation (now w) (Some this) (Some args)]
                 else calls w |}, Normal tt).
Proof.
  destruct w as [n nid q [tid la lt lc] cl].
  unfold consistent, timer_ok, leads, trails; cbn. intros (Hq & _).
  destruct q as [|t [|u q]]; [destruct tid | destruct Hq as (-> & _) | contradiction];
    unfold_ops; cbn; rewrite ?Pos.eqb_refl; cbn;
    destruct mode, lc; cbn; try reflexivity;
    destruct (fn_throws cl (Some this) (Some args)); reflexivity.
Qed.

Lemma cancel_direct (w : world) :
  consistent w ->
  cancel w =
  ({| now := now w; next_id := next_id w; queue := [];
      vars := {| timeoutId := None; lastArgs := lastArgs (vars w);
                 lastThis := lastThis (vars w); leadingCalled := false |};
      calls := calls w |}, Normal tt).
Proof using Type.
  destruct w as [n nid q [tid la lt lc] cl].
  unfold consistent, timer_ok; cbn. intros (Hq & _).
  destruct q as [|t [|u q]]; [destruct tid | destruct Hq as (-> & _) | contradiction];
    unfold cancel, cleanup, bind, read, assign, ret, clearTimeout,
      set_vars, set_queue, set_timeoutId, set_leadingCalled;
    cbn; rewrite ?Pos.eqb_refl; reflexivity.
Qed.

Lemma flush_direct (w : world) :
  consistent w ->
  flush w =
  match timeoutId (vars w) with
  | None => (w, Normal tt)
  | Some _ =>
      let thrown := fn_throws (calls w) (lastThis (vars w)) (lastArgs (vars w)) in
      ({| now := now w; next_id := next_id w; queue := [];
          vars := {| timeoutId := None; lastArgs := lastArgs (vars w);
                     lastThis := lastThis (vars w);
                     leadingCalled := thrown && leadingCalled (vars w) |};
          calls := calls w ++
                   [mkInvocation (now w) (lastThis (vars w)) (lastArgs (vars w))] |},
       if thrown then Thrown else Normal tt)
  end.
Proof.
  destruct w as [n nid q [tid la lt lc] cl].
  unfold consistent, timer_ok; cbn. intros (Hq & Ha & _).
  destruct tid as [h|]; [| unfold_ops; cbn; destruct la; reflexivity].
  destruct la as [a|]; [| exfalso; apply Ha; congruence].
  destruct q as [|t [|u q]]; [ | destruct Hq as (-> & _) | contradiction];
    unfold_ops; cbn; rewrite ?Pos.eqb_refl; cbn;
    destruct (fn_throws cl lt (Some a)); reflexivity.
Qed.

Lemma advance_direct (d : nat) (w : world) :
  consistent w ->
  advance d w =
  match queue w with
  | t :: _ => if deadline t <=? now w + d
              then set_now (now w + d) (fired t w)
              else set_now (now w + d) w
  | [] => set_now (now w + d) w
  end.
Proof.
  destruct w as [n nid q [tid la lt lc] cl].
  unfold consistent, timer_ok, fired, trails; cbn. intros (Hq & _).
  destruct q as [|t [|u q]]; [reflexivity | | contradiction].
  destruct Hq as (-> & Hn & Ht & Hl). unfold advance. cbn.
  destruct (deadline t <=? n + d); [| reflexivity].
  unfold_ops; cbn; rewrite ?Pos.eqb_refl; cbn. rewrite Ht.
  replace (Nat.max n (deadline t)) with (deadline t) by lia.
  destruct (shouldCallLeading t).
  - rewrite Hl by reflexivity. cbn. destruct mode; cbn; try reflexivity;
    destruct (fn_throws cl lt la); reflexivity.
  - cbn. destruct mode; cbn; try reflexivity;
    destruct (fn_throws cl lt la); reflexivity.
Qed.

(** *** The invariant holds in every reachable world *)

Lemma consistent_initial : consistent init.
Proof using Type. unfold consistent; cbn. repeat split; congruence. Qed.

Lemma consistent_set_now (t : nat) (w : world) :
  consistent w -> now w <= t ->
  match queue w with u :: _ => t <= deadline u | [] => True end ->
  consistent (set_now t w).
Proof using Type.
  destruct w as [n nid q [tid la lt lc] cl].
  unfold consistent, timer_ok; cbn. intros (Hq & H) Hle Hd.
  split; [| exact H].
  destruct q as [|u [|v q]]; [exact I | | contradiction].
  destruct Hq as (? & ? & ? & ?). repeat split; auto; lia.
Qed.

Lemma consistent_debounced (this : Recv) (args : Args) (w : world) :
  consistent w -> consistent (fst (debounced this args w)).
Proof.
  intros Hc. rewrite (debounced_direct this args Hc).
  destruct Hc as (_ & _ & Hl & Ht).
  destruct w as [n nid q [tid la lt lc] cl]. unfold leads, trails in *. cbn in *.
  destruct (((mode_eqb mode LEADING || mode_eqb mode BOTH) && negb lc)
            && fn_throws cl (Some this) (Some args)) eqn:E; cbn.
  - unfold consistent; cbn. repeat split; try congruence. exact Ht.
  - unfold consistent, timer_ok; cbn.
    repeat split; try congruence; try lia.
    + intros ->. reflexivity.
    + intros _ Hm. destruct mode, lc; cbn; congruence.
    + intros ->. cbn. auto.
Qed.

Lemma consistent_cancel (w : world) :
  consistent w -> consistent (fst (cancel w)).
Proof using Type.
  intros Hc. rewrite (cancel_direct Hc).
  unfold consistent; cbn. repeat split; congruence.
Qed.

Lemma consistent_flush (w : world) :
  consistent w -> consistent (fst (flush w)).
Proof.
  intros Hc. rewrite (flush_direct Hc).
  destruct (timeoutId (vars w)); [| exact Hc].
  destruct Hc as (_ & _ & _ & Ht).
  unfold consistent; cbn. repeat split; try congruence.
  intros Hm. rewrite (Ht Hm). apply andb_false_r.
Qed.

Lemma consistent_advance (d : nat) (w : world) :
  consistent w -> consistent (advance d w).
Proof.
  intros Hc. rewrite (advance_direct d Hc).
  destruct (queue w) as [|t q] eqn:Eq.
  - apply consistent_set_now; [exact Hc | lia | rewrite Eq; exact I].
  - destruct (Nat.leb_spec (deadline t) (now w + d)).
    + assert (Hd : now w <= deadline t).
      { destruct Hc as (Hq & _). rewrite Eq in Hq. destruct q; [| contradiction].
        destruct Hq as (_ & ? & _). lia. }
      destruct Hc as (_ & Ha & Hl & Ht).
      unfold fired, consistent, set_now; cbn.
      destruct (trails && fn_throws (calls w) (lastThis (vars w)) (lastArgs (vars w)));
        cbn; repeat split; auto; congruence.
    + apply consistent_set_now; [exact Hc | lia | rewrite Eq; lia].
Qed.

Lemma consistent_step (e : event Recv Args) (w : world) :
  consistent w -> consistent (step w e).
Proof.
  destruct e; cbn [step].
  - apply consistent_debounced.
  - apply consistent_cancel.
  - apply consistent_flush.
  - auto.
  - apply consistent_advance.
Qed.

Lemma consistent_run (es : list (event Recv Args)) (w : world) :
  consistent w -> consistent (run es w).
Proof.
  revert w. induction es as [|e es IH]; intros w Hc; cbn; [exact Hc |].
  apply IH, consistent_step, Hc.
Qed.

Lemma consistent_reachable (es : list (event Recv Args)) :
  consistent (run es init).
Proof. apply consistent_run, consistent_initial. Qed.

(** *** Bursts *)

Lemma last_cons (A : Type) (x d : A) (l : list A) : last (x :: l) d = last l x.
Proof.
  revert x d. induction l as [|y l IH]; intros x d; [reflexivity |].
  change (last (x :: y :: l) d) with (last (y :: l) d). rewrite !IH. reflexivity.
Qed.

Lemma Forall_firstn (A : Type) (P : A -> Prop) (k : nat) (l : list A) :
  Forall P l -> Forall P (firstn k l).
Proof.
  revert k. induction l as [|x l IH]; intros k H.
  - rewrite firstn_nil. constructor.
  - destruct k; [constructor |]. inversion H; subst. cbn. constructor; auto.
Qed.

Lemma armed_after_call (this : Recv) (args : Args) (w : world) :
  consistent w ->
  leads w && fn_throws (calls w) (Some this) (Some args) = false ->
  armed (fst (debounced this args w)) this args
        (if leads w
         then calls w ++ [mkInvocation (now w) (Some this) (Some args)]
         else calls w).
Proof.
  intros Hc Hn. pose proof (consistent_debounced this args Hc) as Hc'.
  rewrite (debounced_direct this args Hc) in *. rewrite Hn in *. cbn in *.
  repeat split; try exact Hc'; try apply Hc'.
  - eexists; split; reflexivity.
  - destruct Hc as (_ & _ & _ & Ht). unfold leads.
    destruct mode; cbn; auto; destruct (leadingCalled (vars w)); reflexivity.
Qed.

Lemma armed_leads (w : world) this args history :
  armed w this args history -> leads w = false.
Proof.
  intros (_ & _ & _ & _ & _ & Hl). unfold leads. rewrite Hl.
  destruct mode; reflexivity.
Qed.

Lemma armed_early (d : nat) (w : world) this args history :
  armed w this args history -> d < wait ->
  advance d w = set_now (now w + d) w.
Proof.
  intros (Hc & _ & _ & _ & (t & Hq & Hd) & _) Hlt.
  rewrite (advance_direct d Hc), Hq.
  destruct (Nat.leb_spec (deadline t) (now w + d)); [lia | reflexivity].
Qed.

Lemma armed_late (d : nat) (w : world) this args history :
  armed w this args history -> wait <= d ->
  exists t, queue w = [t] /\ deadline t = now w + wait
            /\ advance d w = set_now (now w + d) (fired t w).
Proof.
  intros (Hc & _ & _ & _ & (t & Hq & Hd) & _) Hle.
  exists t. repeat split; auto.
  rewrite (advance_direct d Hc), Hq.
  destruct (Nat.leb_spec (deadline t) (now w + d)); [reflexivity | lia].
Qed.

Lemma armed_next (g : nat) (w : world) this args history this' args' :
  armed w this args history -> g < wait ->
  armed (run [Advance g; Call this' args'] w) this' args' history.
Proof.
  intros Ha Hg. cbn [run fold_left step].
  rewrite (armed_early Ha Hg).
  assert (Hc : consistent (set_now (now w + g) w)).
  { destruct Ha as (Hc & _ & _ & _ & (t & Hq & Hd) & _).
    apply consistent_set_now; [exact Hc | lia | rewrite Hq; lia]. }
  assert (Hl : leads (set_now (now w + g) w) = false) by exact (armed_leads Ha).
  pose proof (@armed_after_call this' args' _ Hc) as H.
  rewrite Hl in H. destruct Ha as (_ & <- & _). apply H. reflexivity.
Qed.

Lemma armed_burst (rest : list (nat * (Recv * Args))) :
  forall (w : world) this args history,
    armed w this args history ->
    Forall (fun c => fst c < wait) rest ->
    armed (run (burst rest) w)
          (fst (last_call (this, args) rest)) (snd (last_call (this, args) rest))
          history.
Proof.
  induction rest as [|[g [r a]] rest IH]; intros w this args history Ha Hf.
  - exact Ha.
  - inversion Hf as [|? ? Hg Hf']; subst. cbn in Hg.
    unfold last_call. cbn [map snd]. rewrite last_cons.
    change (run (burst ((g, (r, a)) :: rest)) w)
      with (run (burst rest) (run [Advance g; Call r a] w)).
    apply IH; [| exact Hf']. eapply armed_next; eauto.
Qed.

(** The record of invocations only ever grows. *)
Lemma calls_step_grow (e : event Recv Args) (w : world) :
  consistent w -> exists l, calls (step w e) = calls w ++ l.
Proof.
  intros Hc. destruct e as [this args | | | | d]; cbn [step].
  - rewrite (debounced_direct this args Hc).
    destruct (leads w && fn_throws (calls w) (Some this) (Some args)); cbn;
      [eexists; reflexivity |].
    destruct (leads w); [eexists; reflexivity | exists []; symmetry; apply app_nil_r].
  - rewrite (cancel_direct Hc). exists []. symmetry; apply app_nil_r.
  - rewrite (flush_direct Hc). destruct (timeoutId (vars w)); cbn;
      [eexists; reflexivity | exists []; symmetry; apply app_nil_r].
  - exists []. symmetry; apply app_nil_r.
  - rewrite (advance_direct d Hc).
    destruct (queue w) as [|t q]; [exists []; symmetry; apply app_nil_r |].
    destruct (deadline t <=? now w + d); [| exists []; symmetry; apply app_nil_r].
    unfold fired; cbn. destruct trails;
      [eexists; reflexivity | exists []; symmetry; apply app_nil_r].
Qed.

Lemma calls_run_grow (es : list (event Recv Args)) (w : world) :
  consistent w -> exists l, calls (run es w) = calls w ++ l.
Proof.
  revert w. induction es as [|e es IH]; intros w Hc.
  - exists []. symmetry; apply app_nil_r.
  - destruct (calls_step_grow e Hc) as (l1 & H1).
    destruct (IH (step w e) (consistent_step e Hc)) as (l2 & H2).
    exists (l1 ++ l2).
    change (run (e :: es) w) with (run es (step w e)).
    rewrite H2, H1, app_assoc. reflexivity.
Qed.

(** If a history adds [extra] to the record, each of its prefixes adds a
    prefix of [extra]. *)
Lemma calls_run_prefix (k : nat) (es : list (event Recv Args)) (w : world)
    (extra : list (invocation Recv Args)) :
  consistent w ->
  calls (run es w) = calls w ++ extra ->
  exists j, calls (run (firstn k es) w) = calls w ++ firstn j extra.
Proof.
  intros Hc He.
  destruct (calls_run_grow (firstn k es) Hc) as (l1 & H1).
  destruct (calls_run_grow (skipn k es) (consistent_run (firstn k es) Hc)) as (l2 & H2).
  assert (Hr : run es w = run (skipn k es) (run (firstn k es) w)).
  { unfold run. rewrite <- fold_left_app, firstn_skipn. reflexivity. }
  rewrite Hr, H2, H1, <- app_assoc in He. apply app_inv_head in He. subst extra.
  exists (List.length l1). rewrite H1. f_equal.
  rewrite firstn_app, Nat.sub_diag, firstn_all. cbn. symmetry; apply app_nil_r.
Qed.

(** As long as [fn] never throws: no timer registered means nothing pending
    and the leading flag clear. *)
Lemma settled_step (e : event Recv Args) (w : world) :
  (forall h this args, fn_throws h this args = false) ->
  consistent w -> settled w -> settled (step w e).
Proof.
  intros Hn Hc Hs. unfold settled in *.
  destruct e as [this args | | | | d]; cbn [step].
  - rewrite (debounced_direct this args Hc), Hn, andb_false_r. cbn. discriminate.
  - rewrite (cancel_direct Hc). cbn. auto.
  - rewrite (flush_direct Hc). destruct (timeoutId (vars w)) eqn:E; cbn.
    + rewrite Hn. cbn. auto.
    + intros Hq. split; [exact E | apply Hs, Hq].
  - exact Hs.
  - rewrite (advance_direct d Hc).
    destruct (queue w) as [|t q] eqn:Eq; [cbn; intros _; apply Hs; reflexivity |].
    destruct (deadline t <=? now w + d); [| cbn; rewrite Eq; discriminate].
    unfold fired; cbn. rewrite Hn, andb_false_r. cbn. auto.
Qed.

Lemma settled_run (es : list (event Recv Args)) :
  (forall h this args, fn_throws h this args = false) ->
  settled (run es init).
Proof.
  intros Hn.
  assert (H : forall w : world, consistent w -> settled w -> settled (run es w)).
  { induction es as [|e es IH]; intros w Hc Hs; [exact Hs |].
    apply IH; [apply consistent_step, Hc | apply settled_step; assumption]. }
  apply H; [apply consistent_initial |]. intros _. split; reflexivity.
Qed.

(** *** The event loop runs every callback that is due *)

Lemma next_due_In (limit : nat) (q : list timer) (t : timer) :
  next_due limit q = Some t -> In t q /\ deadline t <= limit.
Proof.
  revert t. induction q as [|u q IH]; intros t; cbn; [discriminate |].
  destruct (next_due limit q) as [v|].
  - destruct (IH v eq_refl) as (Hin & Hle).
    destruct (Nat.leb_spec (deadline u) limit); cbn.
    + destruct (deadline u <=? deadline v); intros [= <-]; auto.
    + intros [= <-]; auto.
  - destruct (Nat.leb_spec (deadline u) limit); [| discriminate].
    intros [= <-]; auto.
Qed.

Lemma next_due_None (limit : nat) (q : list timer) :
  next_due limit q = None -> forall t, In t q -> limit < deadline t.
Proof.
  induction q as [|u q IH]; cbn; [intros _ t [] |].
  destruct (next_due limit q) as [v|].
  - destruct ((deadline u <=? limit) && (deadline u <=? deadline v)); discriminate.
  - destruct (Nat.leb_spec (deadline u) limit); [discriminate |].
    intros _ t [<- | Hin]; [assumption | apply IH; auto].
Qed.

Lemma timer_callback_queue (lead trail : bool) (w : world) :
  queue (fst (timer_callback fn_throws lead trail w)) = queue w.
Proof.
  destruct w as [n nid q [tid la lt lc] cl]. unfold_ops. cbn.
  destruct (trail && (negb lead || lc)); cbn; [| reflexivity].
  destruct (fn_throws cl lt la); reflexivity.
Qed.

Lemma filter_shorter (h : positive) (q : list timer) (t : timer) :
  In t q -> timer_id t = h ->
  List.length (filter (fun u => negb (Pos.eqb (timer_id u) h)) q) < List.length q.
Proof.
  induction q as [|u q IH]; intros Hin Hid; [destruct Hin |]. cbn.
  pose proof (filter_length_le (fun u => negb (Pos.eqb (timer_id u) h)) q) as Hle.
  destruct Hin as [-> | Hin].
  - rewrite Hid, Pos.eqb_refl. cbn. lia.
  - specialize (IH Hin Hid).
    destruct (negb (Pos.eqb (timer_id u) h)); cbn; lia.
Qed.

(** One round per registered timer is enough, in any world. *)
Lemma run_due_complete (rounds limit : nat) :
  forall w : world,
    List.length (queue w) <= rounds ->
    next_due limit (queue (run_due fn_throws rounds limit w)) = None.
Proof.
  induction rounds as [|rounds IH]; intros w Hlen.
  - cbn. destruct (queue w); [reflexivity | cbn in Hlen; lia].
  - cbn [run_due]. destruct (next_due limit (queue w)) as [t|] eqn:E; [| exact E].
    apply IH. rewrite timer_callback_queue.
    destruct (@next_due_In limit (queue w) t E) as (Hin & _).
    pose proof (@filter_shorter (timer_id t) (queue w) t Hin eq_refl) as Hlt.
    cbn. lia.
Qed.

Lemma advance_runs_all_due (d : nat) (w : world) (t : timer) :
  In t (queue (advance d w)) -> now (advance d w) < deadline t.
Proof.
  unfold advance. cbn. apply next_due_None, run_due_complete. apply le_n.
Qed.

End Laws.

(** * The specified behaviour *)

Section Bursts.

Variables Recv Args : Type.
Variable fn_throws : list (invocation Recv Args) -> option Recv -> option Args -> bool.
Variable wait : nat.

#[local] Abbreviation world := (world Recv Args).
#[local] Abbreviation run := (run fn_throws wait).
#[local] Abbreviation step := (step fn_throws wait).
#[local] Abbreviation advance := (@advance Recv Args fn_throws).
#[local] Abbreviation init := (@initial_world Recv Args).
#[local] Abbreviation spaced :=
  (Forall (fun c : nat * (Recv * Args) => fst c < wait)).

(** What a closed burst leaves behind, in any mode: once [d >= wait] has
    passed after the last call, the timer has run. *)
Lemma armed_closes (mode : DebounceMode) (d : nat) (w : world) this args history :
  armed wait mode w this args history -> wait <= d ->
  calls (advance d w) =
    (if trails mode
     then history ++ [mkInvocation (now w + wait) (Some this) (Some args)]
     else history)
  /\ queue (advance d w) = []
  /\ now (advance d w) = now w + d
  /\ (trails mode && fn_throws history (Some this) (Some args) = false ->
      timeoutId (vars (advance d w)) = None
      /\ leadingCalled (vars (advance d w)) = false).
Proof.
  intros Ha Hd. destruct (armed_late fn_throws Ha Hd) as (t & _ & Ht & ->).
  destruct Ha as (_ & <- & Hthis & Hargs & _).
  unfold fired; cbn. rewrite Hthis, Hargs, Ht.
  split; [reflexivity |]. split; [reflexivity |]. split; [reflexivity |].
  intros ->. split; reflexivity.
Qed.

(** With no timer registered, the passing of time invokes nothing. *)
Lemma idle_advance (mode : DebounceMode) (d : nat) (w : world) :
  consistent wait mode w -> queue w = [] -> calls (advance d w) = calls w.
Proof.
  intros Hc Hq. rewrite (advance_direct fn_throws d Hc), Hq. reflexivity.
Qed.

(** C1. TRAILING mode: a chain of calls, each less than [wait] after the one
    before, made in any reachable state, invokes [fn] exactly once: nothing
    is invoked while the chain lasts nor before [wait] has passed since its
    last call; at [wait] after the last call [fn] is invoked with the
    receiver and arguments of that call; nothing more is invoked later. *)
Theorem trailing_chain_invokes_once
    (es : list (event Recv Args)) (first : Recv * Args)
    (rest : list (nat * (Recv * Args))) :
  spaced rest ->
  let w0 := run TRAILING es init in
  let chain := Call (fst first) (snd first) :: burst rest in
  let wn := run TRAILING chain w0 in
  let final := last_call first rest in
  (forall k, calls (run TRAILING (firstn k chain) w0) = calls w0)
  /\ (forall d, d < wait -> calls (advance d wn) = calls w0)
  /\ (forall d, wait <= d ->
        calls (advance d wn) =
          calls w0 ++ [mkInvocation (now wn + wait) (Some (fst final)) (Some (snd final))])
  /\ (forall d d', wait <= d ->
        calls (advance d' (advance d wn)) = calls (advance d wn)).
Proof.
  intros Hs w0 chain wn final.
  assert (Hc0 : consistent wait TRAILING w0) by apply consistent_reachable.
  assert (H1 : armed wait TRAILING (step TRAILING w0 (Call (fst first) (snd first)))
                 (fst first) (snd first) (calls w0)).
  { exact (@armed_after_call _ _ fn_throws wait TRAILING (fst first) (snd first) w0
             Hc0 eq_refl). }
  assert (Hn : armed wait TRAILING wn (fst final) (snd final) (calls w0)).
  { subst wn final chain.
    pose proof (armed_burst fn_throws (this := fst first) (args := snd first) H1 Hs) as H.
    destruct first; exact H. }
  repeat split.
  - intros k.
    destruct (@calls_run_prefix _ _ fn_throws wait TRAILING k chain w0 [] Hc0) as (j & Hj).
    + rewrite app_nil_r. apply Hn.
    + rewrite Hj, firstn_nil. apply app_nil_r.
  - intros d Hd. rewrite (armed_early fn_throws Hn Hd). cbn. apply Hn.
  - intros d Hd. apply (armed_closes Hn Hd).
  - intros d d' Hd. apply (@idle_advance TRAILING).
    + apply consistent_advance, Hn.
    + apply (armed_closes Hn Hd).
Qed.

(** The first call of a burst in LEADING or BOTH mode: the leading flag is
    clear, so [fn] is invoked at once; if it returns, the countdown starts. *)
Lemma armed_by_leading_edge (mode : DebounceMode) (w : world) this args :
  mode <> TRAILING ->
  consistent wait mode w ->
  leadingCalled (vars w) = false ->
  fn_throws (calls w) (Some this) (Some args) = false ->
  armed wait mode (step mode w (Call this args)) this args
        (calls w ++ [mkInvocation (now w) (Some this) (Some args)]).
Proof.
  intros Hm Hc Hl Hn.
  assert (Hleads : leads mode w = true).
  { unfold leads. rewrite Hl. destruct mode; [congruence | reflexivity | reflexivity]. }
  pose proof (@armed_after_call _ _ fn_throws wait mode this args w Hc) as H.
  rewrite Hleads, Hn in H. exact (H eq_refl).
Qed.

(** Whatever [fn] does, a call made while the leading flag is clear in
    LEADING or BOTH mode invokes it at once. *)
Lemma leading_edge_invokes (mode : DebounceMode) (w : world) this args :
  mode <> TRAILING ->
  consistent wait mode w ->
  leadingCalled (vars w) = false ->
  calls (step mode w (Call this args)) =
    calls w ++ [mkInvocation (now w) (Some this) (Some args)].
Proof.
  intros Hm Hc Hl. cbn [step]. rewrite (debounced_direct fn_throws this args Hc).
  assert (Hleads : leads mode w = true).
  { unfold leads. rewrite Hl. destruct mode; [congruence | reflexivity | reflexivity]. }
  rewrite Hleads. destruct (fn_throws (calls w) (Some this) (Some args)); reflexivity.
Qed.

(** C2 (amended). BOTH mode: a burst that starts while [leadingCalled] is
    false (as on a new controller and, as long as [fn] has never thrown,
    whenever no timer is registered), and whose leading invocation returns, invokes [fn] exactly twice: at once at the first call with that
    call's receiver and arguments, and at [wait] after the last call with the
    last call's; nothing in between, nothing later.  In every reachable state
    the test the timer makes on [leadingCalled] succeeds, so the trailing
    invocation is never skipped. *)
Theorem both_burst_invokes_twice
    (es : list (event Recv Args)) (first : Recv * Args)
    (rest : list (nat * (Recv * Args))) :
  let w0 := run BOTH es init in
  leadingCalled (vars w0) = false ->
  fn_throws (calls w0) (Some (fst first)) (Some (snd first)) = false ->
  spaced rest ->
  let w1 := step BOTH w0 (Call (fst first) (snd first)) in
  let wn := run BOTH (burst rest) w1 in
  let final := last_call first rest in
  calls w1 = calls w0 ++ [mkInvocation (now w0) (Some (fst first)) (Some (snd first))]
  /\ (forall k, calls (run BOTH (firstn k (burst rest)) w1) = calls w1)
  /\ (forall d, d < wait -> calls (advance d wn) = calls w1)
  /\ (forall d, wait <= d ->
        calls (advance d wn) =
          calls w1 ++ [mkInvocation (now wn + wait) (Some (fst final)) (Some (snd final))])
  /\ (forall d d', wait <= d ->
        calls (advance d' (advance d wn)) = calls (advance d wn))
  /\ (forall es' t,
        In t (queue (run BOTH es' init)) ->
        shouldCallTrailing t
        && (negb (shouldCallLeading t) || leadingCalled (vars (run BOTH es' init)))
        = true).
Proof.
  intros w0 Hl Hr Hs w1 wn final.
  assert (Hm : BOTH <> TRAILING) by discriminate.
  assert (Hc0 : consistent wait BOTH w0) by apply consistent_reachable.
  pose proof (armed_by_leading_edge Hm Hc0 Hl Hr) as H1.
  fold w1 in H1.
  assert (E1 : calls w1 =
               calls w0 ++ [mkInvocation (now w0) (Some (fst first)) (Some (snd first))])
    by apply H1.
  rewrite <- E1 in H1.
  assert (Hn : armed wait BOTH wn (fst final) (snd final) (calls w1)).
  { subst wn final.
    pose proof (armed_burst fn_throws (this := fst first) (args := snd first) H1 Hs) as H.
    destruct first; exact H. }
  split; [exact E1 |]. split; [| split; [| split; [| split]]].
  - intros k.
    destruct (@calls_run_prefix _ _ fn_throws wait BOTH k (burst rest) w1 [])
      as (j & Hj); [apply H1 | |].
    + rewrite app_nil_r. apply Hn.
    + rewrite Hj, firstn_nil. apply app_nil_r.
  - intros d Hd. rewrite (armed_early fn_throws Hn Hd). cbn. apply Hn.
  - intros d Hd. apply (armed_closes Hn Hd).
  - intros d d' Hd. apply (@idle_advance BOTH).
    + apply consistent_advance, Hn.
    + apply (armed_closes Hn Hd).
  - intros es' t Hin.
    pose proof (consistent_reachable fn_throws wait BOTH es') as (Hq & _ & Hlead & _).
    destruct (queue (run BOTH es' init)) as [|u [|v q]]; [destruct Hin | | contradiction].
    destruct Hin as [<- | []]. destruct Hq as (Hid & _ & -> & _).
    rewrite Hlead; [cbn; apply orb_true_r | congruence | discriminate].
Qed.

(** C3. LEADING mode: a burst that starts while no burst is open, and whose
    leading invocation returns, invokes [fn] at once at its first call with
    that call's receiver and arguments; every later call of the burst invokes
    nothing and restarts the countdown; when [wait] has passed after the last
    call the timer runs without invoking [fn] and clears the state; and the
    next call then invokes [fn] at once again. *)
Theorem leading_burst_invokes_first_only
    (es : list (event Recv Args)) (first : Recv * Args)
    (rest : list (nat * (Recv * Args))) :
  let w0 := run LEADING es init in
  leadingCalled (vars w0) = false ->
  fn_throws (calls w0) (Some (fst first)) (Some (snd first)) = false ->
  spaced rest ->
  let w1 := step LEADING w0 (Call (fst first) (snd first)) in
  let wn := run LEADING (burst rest) w1 in
  calls w1 = calls w0 ++ [mkInvocation (now w0) (Some (fst first)) (Some (snd first))]
  /\ (forall k, calls (run LEADING (firstn k (burst rest)) w1) = calls w1)
  /\ (forall k,
        let wk := run LEADING (burst (firstn k rest)) w1 in
        exists t, queue wk = [t] /\ deadline t = now wk + wait)
  /\ (forall d, d < wait ->
        calls (advance d wn) = calls w1 /\ queue (advance d wn) = queue wn)
  /\ (forall d, wait <= d ->
        let wd := advance d wn in
        calls wd = calls w1
        /\ queue wd = []
        /\ timeoutId (vars wd) = None
        /\ leadingCalled (vars wd) = false
        /\ forall this args,
             calls (step LEADING wd (Call this args)) =
               calls w1 ++ [mkInvocation (now wn + d) (Some this) (Some args)]).
Proof.
  intros w0 Hl Hr Hs w1 wn.
  assert (Hm : LEADING <> TRAILING) by discriminate.
  assert (Hc0 : consistent wait LEADING w0) by apply consistent_reachable.
  pose proof (armed_by_leading_edge Hm Hc0 Hl Hr) as H1.
  fold w1 in H1.
  assert (E1 : calls w1 =
               calls w0 ++ [mkInvocation (now w0) (Some (fst first)) (Some (snd first))])
    by apply H1.
  rewrite <- E1 in H1.
  pose proof (armed_burst fn_throws H1 Hs) as Hn. fold wn in Hn.
  split; [exact E1 |]. split; [| split; [| split]].
  - intros k.
    destruct (@calls_run_prefix _ _ fn_throws wait LEADING k (burst rest) w1 [])
      as (j & Hj); [apply H1 | |].
    + rewrite app_nil_r. apply Hn.
    + rewrite Hj, firstn_nil. apply app_nil_r.
  - intros k wk.
    assert (Hk : spaced (firstn k rest)) by apply Forall_firstn, Hs.
    apply (armed_burst fn_throws H1 Hk).
  - intros d Hd. rewrite (armed_early fn_throws Hn Hd). cbn. split; [apply Hn | reflexivity].
  - intros d Hd wd.
    destruct (armed_closes Hn Hd) as (Hcalls & Hq & Hnow & Hreset).
    fold wd in Hcalls, Hq, Hnow, Hreset.
    unfold trails in Hcalls, Hreset. cbn [mode_eqb orb andb] in Hcalls, Hreset.
    destruct (Hreset eq_refl) as (Hid & Hflag).
    repeat split; try assumption.
    intros this args. rewrite <- Hcalls, <- Hnow.
    apply leading_edge_invokes; [exact Hm | | exact Hflag].
    apply consistent_advance, Hn.
Qed.

End Bursts.

Section Control.

Variables Recv Args : Type.
Variable fn_throws : list (invocation Recv Args) -> option Recv -> option Args -> bool.
Variable wait : nat.
Variable mode : DebounceMode.

#[local] Abbreviation world := (world Recv Args).
#[local] Abbreviation event := (event Recv Args).
#[local] Abbreviation consistent := (consistent wait mode).
#[local] Abbreviation debounced := (debounced fn_throws wait mode).
#[local] Abbreviation flush := (@flush Recv Args fn_throws).
#[local] Abbreviation cancel := (@cancel Recv Args).
#[local] Abbreviation pending := (@pending Recv Args).
#[local] Abbreviation advance := (@advance Recv Args fn_throws).
#[local] Abbreviation step := (step fn_throws wait mode).
#[local] Abbreviation run := (run fn_throws wait mode).
#[local] Abbreviation init := (@initial_world Recv Args).

(** Only a call changes the recorded receiver and arguments. *)
Lemma recorded_step (e : event) (w : world) :
  consistent w ->
  match e with
  | Call this args =>
      lastThis (vars (step w e)) = Some this /\ lastArgs (vars (step w e)) = Some args
  | _ =>
      lastThis (vars (step w e)) = lastThis (vars w)
      /\ lastArgs (vars (step w e)) = lastArgs (vars w)
  end.
Proof.
  intros Hc. destruct e as [this args | | | | d]; cbn [step].
  - rewrite (debounced_direct fn_throws this args Hc).
    destruct (leads mode w && fn_throws (calls w) (Some this) (Some args)); split; reflexivity.
  - rewrite (cancel_direct Hc). split; reflexivity.
  - rewrite (flush_direct fn_throws Hc). destruct (timeoutId (vars w)); split; reflexivity.
  - split; reflexivity.
  - rewrite (advance_direct fn_throws d Hc).
    destruct (queue w) as [|t q]; [split; reflexivity |].
    destruct (deadline t <=? now w + d); [| split; reflexivity].
    unfold fired; cbn.
    destruct (trails mode && fn_throws (calls w) (lastThis (vars w)) (lastArgs (vars w)));
      split; reflexivity.
Qed.

Lemma recorded_run (es : list event) :
  forall (w : world) (acc : option (Recv * Args)),
    consistent w ->
    lastThis (vars w) = option_map fst acc ->
    lastArgs (vars w) = option_map snd acc ->
    let acc' :=
      fold_left
        (fun acc e => match e with Call this args => Some (this, args) | _ => acc end)
        es acc in
    lastThis (vars (run es w)) = option_map fst acc'
    /\ lastArgs (vars (run es w)) = option_map snd acc'.
Proof.
  induction es as [|e es IH]; intros w acc Hc Hthis Hargs; [split; assumption |].
  cbn [fold_left]. change (run (e :: es) w) with (run es (step w e)).
  pose proof (recorded_step e Hc) as Hr.
  apply IH; [apply consistent_step, Hc | |];
    destruct e; destruct Hr as (H1 & H2); cbn [option_map fst snd]; congruence.
Qed.

(** The recorded receiver and arguments are those of the latest call. *)
Lemma recorded_latest (es : list event) :
  lastThis (vars (run es init)) = option_map fst (latest es)
  /\ lastArgs (vars (run es init)) = option_map snd (latest es).
Proof.
  apply (@recorded_run es init None); [apply consistent_initial | reflexivity | reflexivity].
Qed.

Lemma pending_direct (w : world) :
  pending w = (w, Normal (match timeoutId (vars w) with Some _ => true | None => false end)).
Proof. reflexivity. Qed.

(** C6. [flush()] in a reachable state.  With nothing pending it returns
    at once, leaving everything as it was.  With a timer pending it clears the
    timer and invokes [fn] there and then with the receiver and arguments of
    the latest call; nothing is pending afterwards; it returns exactly when
    [fn] returns, and then [leadingCalled] is false. *)
Theorem flush_invokes_iff_pending (es : list event) :
  let w := run es init in
  let w' := fst (flush w) in
  (snd (pending w) = Normal false -> flush w = (w, Normal tt))
  /\ (snd (pending w) = Normal true ->
      (exists this args,
          latest es = Some (this, args)
          /\ calls w' = calls w ++ [mkInvocation (now w) (Some this) (Some args)])
      /\ queue w' = []
      /\ snd (pending w') = Normal false
      /\ (snd (flush w) = Normal tt <->
          fn_throws (calls w) (lastThis (vars w)) (lastArgs (vars w)) = false)
      /\ (snd (flush w) = Normal tt -> leadingCalled (vars w') = false)).
Proof.
  intros w w'.
  assert (Hc : consistent w) by apply consistent_reachable.
  destruct (recorded_latest es) as (Hthis & Hargs). fold w in Hthis, Hargs.
  subst w'. rewrite (flush_direct fn_throws Hc), pending_direct. cbn [snd].
  destruct (timeoutId (vars w)) as [h|] eqn:E; (split; [| intros Hp]);
    try discriminate; try reflexivity.
  cbn -[w].
  destruct Hc as (_ & Ha & _). rewrite E in Ha.
  destruct (latest es) as [[this args]|];
    [| exfalso; apply Ha; [discriminate | exact Hargs]].
  repeat split.
  - exists this, args. split; [reflexivity |]. rewrite Hthis, Hargs. reflexivity.
  - destruct (fn_throws (calls w) (lastThis (vars w)) (lastArgs (vars w)));
      [discriminate | reflexivity].
  - intros ->. reflexivity.
  - destruct (fn_throws (calls w) (lastThis (vars w)) (lastArgs (vars w)));
      [discriminate | reflexivity].
Qed.

(** C7. [cancel()] in a reachable state returns without invoking [fn], leaves
    no timer registered and no handle kept, and clears [leadingCalled];
    cancelling again changes nothing; however much time passes afterwards,
    [fn] is not invoked; and in LEADING or BOTH mode the next call, whenever
    it comes, invokes [fn] at once. *)
Theorem cancel_releases_without_invoking (es : list event) :
  let w := run es init in
  let w' := fst (cancel w) in
  snd (cancel w) = Normal tt
  /\ calls w' = calls w
  /\ queue w' = []
  /\ timeoutId (vars w') = None
  /\ leadingCalled (vars w') = false
  /\ cancel w' = (w', Normal tt)
  /\ (forall d, calls (advance d w') = calls w)
  /\ (mode <> TRAILING ->
      forall d this args,
        calls (step (advance d w') (Call this args)) =
          calls w ++ [mkInvocation (now w + d) (Some this) (Some args)]).
Proof.
  intros w w'.
  assert (Hc : consistent w) by apply consistent_reachable.
  pose proof (consistent_cancel Hc) as Hc'. fold w' in Hc'.
  pose proof (cancel_direct Hc) as E.
  assert (Ew : w' =
    {| now := now w; next_id := next_id w; queue := [];
       vars := {| timeoutId := None; lastArgs := lastArgs (vars w);
                  lastThis := lastThis (vars w); leadingCalled := false |};
       calls := calls w |}) by (subst w'; rewrite E; reflexivity).
  assert (Hadv : forall d, advance d w' = set_now (now w + d) w').
  { intros d. rewrite (advance_direct fn_throws d Hc'), Ew. reflexivity. }
  split; [rewrite E; reflexivity |].
  split; [rewrite Ew; reflexivity |].
  split; [rewrite Ew; reflexivity |].
  split; [rewrite Ew; reflexivity |].
  split; [rewrite Ew; reflexivity |].
  split; [rewrite (cancel_direct Hc'), Ew; reflexivity |].
  split.
  - intros d. rewrite Hadv, Ew. reflexivity.
  - intros Hm d this args.
    rewrite (@leading_edge_invokes _ _ fn_throws wait mode _ this args Hm).
    + rewrite Hadv, Ew. reflexivity.
    + apply consistent_advance, Hc'.
    + rewrite Hadv, Ew. reflexivity.
Qed.

(** C8 (amended). [pending()] changes nothing and answers whether a handle
    is kept.  In a reachable state it answers true whenever a timer is
    registered.  It answers false on a new controller; true right after a
    call that returned (which registered a timer); false once the timer has
    run to its end, that is when the invocation it made, if any, returned;
    false after [cancel()]; false after [flush()]. *)
Theorem pending_reports_handle (es : list event) :
  let w := run es init in
  (exists b, pending w = (w, Normal b)
             /\ (b = true <-> exists h, timeoutId (vars w) = Some h))
  /\ (queue w <> [] -> snd (pending w) = Normal true)
  /\ snd (pending init) = Normal false
  /\ (forall this args,
        snd (debounced this args w) = Normal tt ->
        queue (fst (debounced this args w)) <> []
        /\ snd (pending (fst (debounced this args w))) = Normal true)
  /\ (forall d t,
        queue w = [t] -> deadline t <= now w + d ->
        trails mode && fn_throws (calls w) (lastThis (vars w)) (lastArgs (vars w)) = false ->
        snd (pending (advance d w)) = Normal false)
  /\ snd (pending (fst (cancel w))) = Normal false
  /\ snd (pending (fst (flush w))) = Normal false.
Proof.
  intros w.
  assert (Hc : consistent w) by apply consistent_reachable.
  split; [| split; [| split; [| split; [| split; [| split]]]]].
  - eexists. split; [apply pending_direct |].
    destruct (timeoutId (vars w)) as [h|]; split.
    + intros _. exists h. reflexivity.
    + reflexivity.
    + discriminate.
    + intros (h & Hh). discriminate.
  - intros Hq. rewrite pending_direct. destruct Hc as (Ht & _).
    destruct (queue w) as [|t [|u q]]; [congruence | | contradiction].
    destruct Ht as (-> & _). reflexivity.
  - reflexivity.
  - intros this args. rewrite (debounced_direct fn_throws this args Hc).
    destruct (leads mode w && fn_throws (calls w) (Some this) (Some args)); cbn.
    + discriminate.
    + intros _. split; [discriminate | reflexivity].
  - intros d t Hq Hd Hn. rewrite (advance_direct fn_throws d Hc), Hq.
    destruct (Nat.leb_spec (deadline t) (now w + d)); [| lia].
    unfold fired. rewrite Hn. reflexivity.
  - rewrite (cancel_direct Hc). reflexivity.
  - rewrite (flush_direct fn_throws Hc), pending_direct.
    destruct (timeoutId (vars w)) eqn:E; cbn; [reflexivity | rewrite E; reflexivity].
Qed.

(** C9. LEADING or BOTH mode, in any state of the closure variables and of
    the timer registry: when a call finds [leadingCalled] false and [fn] throws
    in the leading invocation, the call throws; the timer whose handle was
    kept is no longer registered and no timer has been registered; no handle
    is kept; the recorded receiver and arguments are those of this call;
    [leadingCalled] is still false; and the next call invokes [fn] at once. *)
Theorem throwing_leading_edge (w : world) (this : Recv) (args : Args) :
  mode <> TRAILING ->
  leadingCalled (vars w) = false ->
  fn_throws (calls w) (Some this) (Some args) = true ->
  let w' := fst (debounced this args w) in
  snd (debounced this args w) = Thrown
  /\ calls w' = calls w ++ [mkInvocation (now w) (Some this) (Some args)]
  /\ (forall t, In t (queue w') ->
        In t (queue w) /\ timeoutId (vars w) <> Some (timer_id t))
  /\ next_id w' = next_id w
  /\ snd (pending w') = Normal false
  /\ lastArgs (vars w') = Some args
  /\ lastThis (vars w') = Some this
  /\ leadingCalled (vars w') = false
  /\ (forall this2 args2,
        calls (step w' (Call this2 args2)) =
          calls w' ++ [mkInvocation (now w') (Some this2) (Some args2)]).
Proof.
  intros Hm Hl Hthrow.
  destruct w as [n nid q [tid la lt lc] cl]. cbn in Hl, Hthrow. subst lc.
  assert (Hnext : forall this2 args2 (q' : list timer),
    calls (step {| now := n; next_id := nid; queue := q';
                   vars := {| timeoutId := None; lastArgs := Some args;
                              lastThis := Some this; leadingCalled := false |};
                   calls := cl ++ [mkInvocation n (Some this) (Some args)] |}
                (Call this2 args2)) =
    (cl ++ [mkInvocation n (Some this) (Some args)])
      ++ [mkInvocation n (Some this2) (Some args2)]).
  { intros this2 args2 q'. cbn [step]. unfold_ops.
    destruct mode; [congruence | |]; cbn;
      destruct (fn_throws (cl ++ [mkInvocation n (Some this) (Some args)])
                          (Some this2) (Some args2)); reflexivity. }
  assert (Hrun : debounced this args
           {| now := n; next_id := nid; queue := q;
              vars := {| timeoutId := tid; lastArgs := la; lastThis := lt;
                         leadingCalled := false |};
              calls := cl |} =
         ({| now := n; next_id := nid;
             queue := match tid with
                      | Some h => filter (fun t => negb (Pos.eqb (timer_id t) h)) q
                      | None => q
                      end;
             vars := {| timeoutId := None; lastArgs := Some args;
                        lastThis := Some this; leadingCalled := false |};
             calls := cl ++ [mkInvocation n (Some this) (Some args)] |}, Thrown)).
  { unfold_ops.
    destruct mode; [congruence | |]; destruct tid; cbn; rewrite Hthrow; reflexivity. }
  cbv zeta. rewrite Hrun. cbn [fst snd now next_id queue vars calls timeoutId
                               lastArgs lastThis leadingCalled].
  split; [reflexivity |]. split; [reflexivity |].
  split.
  { intros t Hin. destruct tid as [h|].
    - apply filter_In in Hin. destruct Hin as (Hin & Hne). split; [exact Hin |].
      intros [= ->]. rewrite Pos.eqb_refl in Hne. discriminate.
    - split; [exact Hin | discriminate]. }
  repeat (split; [reflexivity |]).
  intros this2 args2. apply Hnext.
Qed.

(** C10. In a reachable state with a handle kept, when [fn] throws in the
    invocation made by [flush()]: [flush()] throws; the timer has been cleared
    and no handle is kept; [leadingCalled] is what it was, not reset.  In
    LEADING or BOTH mode it was true, so the next call invokes nothing. *)
Theorem throwing_flush_keeps_leading_flag (es : list event) :
  let w := run es init in
  snd (pending w) = Normal true ->
  fn_throws (calls w) (lastThis (vars w)) (lastArgs (vars w)) = true ->
  let w' := fst (flush w) in
  snd (flush w) = Thrown
  /\ calls w' = calls w ++ [mkInvocation (now w) (lastThis (vars w)) (lastArgs (vars w))]
  /\ queue w' = []
  /\ snd (pending w') = Normal false
  /\ leadingCalled (vars w') = leadingCalled (vars w)
  /\ (mode <> TRAILING ->
      leadingCalled (vars w') = true
      /\ forall this args, calls (step w' (Call this args)) = calls w').
Proof.
  intros w Hp Hthrow w'.
  assert (Hc : consistent w) by apply consistent_reachable.
  assert (Hc' : consistent w') by apply consistent_flush, Hc.
  rewrite pending_direct in Hp. cbn [snd] in Hp.
  destruct (timeoutId (vars w)) as [h|] eqn:E; [| discriminate].
  assert (Hw' : flush w =
    ({| now := now w; next_id := next_id w; queue := [];
        vars := {| timeoutId := None; lastArgs := lastArgs (vars w);
                   lastThis := lastThis (vars w);
                   leadingCalled := leadingCalled (vars w) |};
        calls := calls w ++
                 [mkInvocation (now w) (lastThis (vars w)) (lastArgs (vars w))] |},
     Thrown)).
  { rewrite (flush_direct fn_throws Hc), E. cbn zeta. rewrite Hthrow. reflexivity. }
  assert (Hflag : mode <> TRAILING -> leadingCalled (vars w) = true).
  { destruct Hc as (_ & _ & Hlead & _). apply Hlead. rewrite E. discriminate. }
  split; [| split; [| split; [| split; [| split]]]];
    try (subst w'; rewrite Hw'; reflexivity).
  intros Hm. split; [subst w'; rewrite Hw'; exact (Hflag Hm) |].
  intros this args. cbn [step].
  rewrite (debounced_direct fn_throws this args Hc').
  assert (Hleads : leads mode w' = false).
  { unfold leads. subst w'. rewrite Hw'. cbn. rewrite (Hflag Hm). apply andb_false_r. }
  rewrite Hleads. reflexivity.
Qed.

(** C5 (amended). In every reachable state, whatever [fn] does: at most one
    timer is registered, and it is the one whose handle is kept; [lastArgs]
    is set whenever a handle is kept; [cancel()] leaves [leadingCalled] false.
    If [fn] never throws, then moreover a handle is kept exactly while a timer
    is registered, [leadingCalled] is true exactly while a timer is registered
    in LEADING or BOTH mode, and it is false after [flush()] and after the
    timer has run. *)
Theorem controller_invariants (es : list event) :
  let w := run es init in
  (List.length (queue w) <= 1
   /\ forall t, In t (queue w) -> timeoutId (vars w) = Some (timer_id t))
  /\ (timeoutId (vars w) <> None -> lastArgs (vars w) <> None)
  /\ leadingCalled (vars (fst (cancel w))) = false
  /\ ((forall h this args, fn_throws h this args = false) ->
      (timeoutId (vars w) <> None <-> queue w <> [])
      /\ (leadingCalled (vars w) = true <-> mode <> TRAILING /\ queue w <> [])
      /\ leadingCalled (vars (fst (flush w))) = false
      /\ (forall d, queue (advance d w) = [] ->
                    leadingCalled (vars (advance d w)) = false)).
Proof.
  intros w.
  assert (Hc : consistent w) by apply consistent_reachable.
  assert (Hkept : forall t, In t (queue w) -> timeoutId (vars w) = Some (timer_id t)).
  { destruct Hc as (Hq & _). intros t Hin.
    destruct (queue w) as [|u [|v q]]; [destruct Hin | | contradiction].
    destruct Hin as [<- | []]. apply Hq. }
  split; [split; [| exact Hkept] |].
  { destruct Hc as (Hq & _).
    destruct (queue w) as [|u [|v q]]; cbn; [lia | lia | contradiction]. }
  split; [apply Hc |].
  split; [rewrite (cancel_direct Hc); reflexivity |].
  intros Hn.
  assert (Hs : forall es', settled (run es' init))
    by (intros es'; apply settled_run, Hn).
  assert (Hpend : timeoutId (vars w) <> None <-> queue w <> []).
  { split.
    - intros Hid Hq. destruct (Hs es Hq) as (E & _). contradiction.
    - intros Hq. destruct (queue w) as [|t q] eqn:Eq; [congruence |].
      rewrite (Hkept t (or_introl eq_refl)). discriminate. }
  split; [exact Hpend |].
  split; [| split].
  - split.
    + intros Hl. split.
      * intros Hm. destruct Hc as (_ & _ & _ & Ht). rewrite (Ht Hm) in Hl. discriminate.
      * intros Hq. destruct (Hs es Hq) as (_ & E). fold w in E. congruence.
    + intros (Hm & Hq). destruct Hc as (_ & _ & Hlead & _).
      apply Hlead; [apply Hpend, Hq | exact Hm].
  - rewrite (flush_direct fn_throws Hc).
    destruct (timeoutId (vars w)) eqn:E; cbn; [rewrite Hn; reflexivity |].
    apply (Hs es). destruct (queue w) as [|t q] eqn:Eq; [exact Eq |].
    discriminate (Hkept t (or_introl eq_refl)).
  - intros d Hq.
    assert (Hr : advance d w = run (es ++ [Advance d]) init).
    { unfold run. rewrite fold_left_app. reflexivity. }
    rewrite Hr in *. apply (Hs _ Hq).
Qed.

End Control.

(** * Construction *)

Section Construction.

Variables Recv Args : Type.

#[local] Abbreviation debounce := (debounce Recv Args).
#[local] Abbreviation Controller := (Controller Recv Args).

Lemma typeof_function (v : JS.value) :
  String.eqb (JS.typeof v) "function" = true <-> exists props, v = JS.Object true props.
Proof.
  destruct v as [| | b | n | s | [|] props]; cbn; split;
    try discriminate; try (intros (p & [=])); try reflexivity.
  intros _. exists props. reflexivity.
Qed.

Lemma wait_check (wait : JS.value) :
  let wait' := JS.coalesce wait (JS.Number (JS.Finite 0)) in
  negb (String.eqb (JS.typeof wait') "number")
  || match wait' with JS.Number n => JS.lt_zero n | _ => false end = true
  <-> refused_wait wait.
Proof.
  destruct wait as [| | b | [| | | z] | s | [|] props]; cbn; split; intros H;
    try discriminate H; try (inversion H; fail); try (constructor; fail).
  - apply Z.ltb_lt in H. constructor. exact H.
  - inversion H; subst. apply Z.ltb_lt. assumption.
Qed.

Lemma includes_recognised (m : JS.value) :
  JS.includes DebounceMode_values m = true <-> recognised m.
Proof.
  unfold recognised. destruct m as [| | b | n | s | c props]; cbn;
    try (split; [discriminate | intros (k & [=])]).
  rewrite !orb_true_iff, !String.eqb_eq. split.
  - intros [-> | [-> | [-> | H]]];
      [exists TRAILING | exists LEADING | exists BOTH | discriminate H]; reflexivity.
  - intros ([| |] & [= ->]); cbn; auto.
Qed.

Lemma supplies_resolved (mo m : JS.value) :
  supplies mo m -> resolved_mode mo = m.
Proof.
  intros H. destruct H as [s | c props m Hp Hn]; unfold resolved_mode; cbn.
  - reflexivity.
  - destruct c; cbn; rewrite Hp; unfold JS.coalesce; rewrite Hn; reflexivity.
Qed.

Lemma resolved_cases (mo : JS.value) :
  supplies mo (resolved_mode mo)
  \/ ((forall m, ~ supplies mo m)
      /\ resolved_mode mo = JS.String (mode_string TRAILING)).
Proof.
  destruct mo as [| | b | n | s | c props];
    try (right; split; [intros m H; inversion H | reflexivity]).
  - left. constructor.
  - unfold resolved_mode. destruct c; cbn;
    (destruct (JS.own_property "mode" props) as [m|] eqn:Hp;
     [ destruct (JS.nullish m) eqn:Hn;
       [ right; split;
         [ intros m' H; inversion H; subst; congruence
         | unfold JS.coalesce; rewrite Hn; reflexivity ]
       | left; unfold JS.coalesce; rewrite Hn; constructor; assumption ]
     | right; split; [intros m' H; inversion H; subst; congruence | reflexivity] ]).
Qed.

(** [debounce] as three tests in sequence over the normalised arguments. *)
Lemma debounce_unfold (fn wait modeOrOptions : JS.value) :
  debounce fn wait modeOrOptions =
  let wait' := JS.coalesce wait (JS.Number (JS.Finite 0)) in
  if negb (String.eqb (JS.typeof fn) "function") then
    inl (MkTypeError "Expected fn to be a function")
  else if negb (String.eqb (JS.typeof wait') "number")
          || match wait' with JS.Number n => JS.lt_zero n | _ => false end then
    inl (MkTypeError "Expected wait to be a non-negative number")
  else if negb (JS.includes DebounceMode_values (resolved_mode modeOrOptions)) then
    inl (MkTypeError "Invalid debounce mode")
  else
    inr {| c_fn := fn; c_wait := wait'; c_mode := resolved_mode modeOrOptions;
           c_state := initial_state |}.
Proof. reflexivity. Qed.

(** C4 (amended). [debounce] throws a [TypeError] exactly when [fn] is not
    a function, or [wait] (with [undefined] and [null] standing for 0) is not
    of type number or is below zero, or the mode supplied by the third
    argument -- the argument itself when it is a string, else its [mode]
    property when that is neither [null] nor [undefined] -- is not one of
    the three mode strings; the tests are made in this order.  A third
    argument that supplies no mode (undefined, null, a number, a boolean, an
    object without such a property) is accepted and means TRAILING.  On
    success the controller has the initial state: no handle, nothing
    recorded, [leadingCalled] false. *)
Theorem debounce_validates (fn wait modeOrOptions : JS.value) :
  let callable := exists props, fn = JS.Object true props in
  let bad_mode := exists m, supplies modeOrOptions m /\ ~ recognised m in
  ((exists e, debounce fn wait modeOrOptions = inl e)
   <-> ~ callable \/ refused_wait wait \/ bad_mode)
  /\ (~ callable ->
      debounce fn wait modeOrOptions = inl (MkTypeError "Expected fn to be a function"))
  /\ (callable -> refused_wait wait ->
      debounce fn wait modeOrOptions =
        inl (MkTypeError "Expected wait to be a non-negative number"))
  /\ (callable -> ~ refused_wait wait -> bad_mode ->
      debounce fn wait modeOrOptions = inl (MkTypeError "Invalid debounce mode"))
  /\ (forall c : Controller,
        debounce fn wait modeOrOptions = inr c ->
        c_fn c = fn
        /\ c_state c = initial_state
        /\ c_wait c = (if JS.nullish wait then JS.Number (JS.Finite 0) else wait)
        /\ recognised (c_mode c)
        /\ (forall m, supplies modeOrOptions m -> c_mode c = m)
        /\ ((forall m, ~ supplies modeOrOptions m) ->
            c_mode c = JS.String (mode_string TRAILING))).
Proof.
  intros callable bad_mode. rewrite debounce_unfold. cbv zeta.
  pose proof (typeof_function fn) as Hfn. fold callable in Hfn.
  pose proof (wait_check wait) as Hwait. cbv zeta in Hwait.
  pose proof (includes_recognised (resolved_mode modeOrOptions)) as Hmode.
  assert (Hbad : bad_mode <-> ~ recognised (resolved_mode modeOrOptions)).
  { unfold bad_mode. split.
    - intros (m & Hs & Hr). rewrite (supplies_resolved Hs). exact Hr.
    - intros Hr. destruct (resolved_cases modeOrOptions) as [Hs | (_ & E)].
      + eexists. split; [exact Hs | exact Hr].
      + exfalso. apply Hr. rewrite E. exists TRAILING. reflexivity. }
  destruct (String.eqb (JS.typeof fn) "function") eqn:Ef; cbn [negb].
  2:{ assert (Hnc : ~ callable) by (intros Hc; apply Hfn in Hc; discriminate).
      split; [split; [auto | eexists; reflexivity] |].
      split; [reflexivity |].
      split; [intros Hc; contradiction |].
      split; [intros Hc; contradiction |].
      intros c [=]. }
  assert (Hc : callable) by (apply Hfn; reflexivity).
  destruct (negb (String.eqb (JS.typeof (JS.coalesce wait (JS.Number (JS.Finite 0))))
                             "number")
            || match JS.coalesce wait (JS.Number (JS.Finite 0)) with
               | JS.Number n => JS.lt_zero n
               | _ => false
               end) eqn:Ew.
  { assert (Hr : refused_wait wait) by (apply Hwait; reflexivity).
    split; [split; [auto | eexists; reflexivity] |].
    split; [intros Hnc; contradiction |].
    split; [reflexivity |].
    split; [intros _ Hnr; contradiction |].
    intros c [=]. }
  assert (Hnr : ~ refused_wait wait) by (intros Hr; apply Hwait in Hr; discriminate).
  destruct (JS.includes DebounceMode_values (resolved_mode modeOrOptions)) eqn:Em;
    cbn [negb].
  2:{ assert (Hb : bad_mode).
      { apply Hbad. intros Hr. apply Hmode in Hr. discriminate. }
      split; [split; [auto | eexists; reflexivity] |].
      split; [intros Hnc; contradiction |].
      split; [intros _ Hr; contradiction |].
      split; [reflexivity |].
      intros c [=]. }
  assert (Hrec : recognised (resolved_mode modeOrOptions)) by (apply Hmode; reflexivity).
  split.
  { split; [intros (e & [=]) |].
    intros [Hnc | [Hr | Hb]]; [contradiction | contradiction |].
    apply Hbad in Hb. contradiction. }
  split; [intros Hnc; contradiction |].
  split; [intros _ Hr; contradiction |].
  split; [intros _ _ Hb; apply Hbad in Hb; contradiction |].
  intros c [= <-]. cbn.
  repeat split; try assumption.
  - intros m Hs. apply supplies_resolved, Hs.
  - intros Hno. destruct (resolved_cases modeOrOptions) as [Hs | (_ & E)];
      [exfalso; exact (Hno _ Hs) | exact E].
Qed.

End Construction.

(** * Further properties of the code *)

Lemma apart_snoc (gap x : nat) (l : list nat) :
  apart gap (l ++ [x]) =
  apart gap l && match l with [] => true | _ :: _ => last l 0 + gap <=? x end.
Proof.
  induction l as [|a l IH]; [reflexivity |].
  destruct l as [|b l].
  - cbn. rewrite !andb_true_r. reflexivity.
  - change (apart gap ((a :: b :: l) ++ [x]))
      with ((a + gap <=? b) && apart gap ((b :: l) ++ [x])).
    rewrite IH.
    change (apart gap (a :: b :: l)) with ((a + gap <=? b) && apart gap (b :: l)).
    change (last (a :: b :: l) 0) with (last (b :: l) 0).
    rewrite andb_assoc. reflexivity.
Qed.

Section Further.
Variables Recv Args : Type.
Variable fn_throws : list (invocation Recv Args) -> option Recv -> option Args -> bool.
Variable wait : nat.

#[local] Abbreviation world := (world Recv Args).
#[local] Abbreviation event := (event Recv Args).
#[local] Abbreviation run := (run fn_throws wait).
#[local] Abbreviation step := (step fn_throws wait).
#[local] Abbreviation debounced := (debounced fn_throws wait).
#[local] Abbreviation advance := (@advance Recv Args fn_throws).
#[local] Abbreviation flush := (@flush Recv Args fn_throws).
#[local] Abbreviation init := (@initial_world Recv Args).

(** Recording one more invocation at [time] keeps the pace when [time] is
    late enough. *)
Lemma paced_record (w w' : world) (time : nat) this args :
  paced wait w ->
  calls w' = calls w ++ [mkInvocation time this args] ->
  (calls w <> [] -> last_time w + wait <= time) ->
  time <= now w' ->
  (forall t, In t (queue w') -> time + wait <= deadline t) ->
  paced wait w'.
Proof.
  intros (Ha & _ & _) Hc Hgap Hnow Hq. unfold paced, last_time in *.
  rewrite Hc, map_app. cbn [map inv_time]. rewrite last_last, apart_snoc, Ha.
  repeat split; try assumption.
  destruct (calls w) as [|i l]; [reflexivity |].
  cbn [map andb]. apply Nat.leb_le. apply Hgap. discriminate.
Qed.

Lemma paced_same (w w' : world) :
  paced wait w ->
  calls w' = calls w ->
  now w <= now w' ->
  (forall t, In t (queue w') -> last_time w + wait <= deadline t) ->
  paced wait w'.
Proof.
  intros (Ha & Hn & _) Hc Hnow Hq. unfold paced, last_time in *. rewrite Hc.
  repeat split; try assumption. lia.
Qed.

Lemma trailing_step_paced (e : event) (w : world) :
  is_flush e = false ->
  consistent wait TRAILING w -> paced wait w ->
  paced wait (step TRAILING w e).
Proof.
  intros He Hc Hp. destruct e as [this args | | | | d]; cbn [step]; try discriminate.
  - rewrite (debounced_direct fn_throws this args Hc). cbn.
    apply paced_same with (w := w); [exact Hp | reflexivity | cbn; lia |].
    cbn. intros t [<- | []]. cbn. destruct Hp as (_ & Hn & _). lia.
  - rewrite (cancel_direct Hc). cbn.
    apply paced_same with (w := w); [exact Hp | reflexivity | cbn; lia | intros t []].
  - exact Hp.
  - rewrite (advance_direct fn_throws d Hc).
    destruct (queue w) as [|t q] eqn:Eq.
    + apply paced_same with (w := w); [exact Hp | reflexivity | cbn; lia |].
      cbn. rewrite Eq. intros t [].
    + destruct (Nat.leb_spec (deadline t) (now w + d)).
      * eapply paced_record with (w := w).
        -- exact Hp.
        -- cbn. reflexivity.
        -- intros _. apply Hp. rewrite Eq. left; reflexivity.
        -- cbn. exact H.
        -- intros u [].
      * apply paced_same with (w := w); [exact Hp | reflexivity | cbn; lia |].
        cbn. rewrite Eq. intros u Hu. apply Hp. rewrite Eq. exact Hu.
Qed.

(** X2. TRAILING mode, any [fn]: as long as [flush()] is not used, successive
    invocations of [fn] are at least [wait] apart. *)
Theorem trailing_invocations_spaced (es : list event) :
  forallb (fun e => negb (is_flush e)) es = true ->
  apart wait (map (@inv_time Recv Args) (calls (run TRAILING es init))) = true.
Proof.
  intros Hes.
  assert (H : forall w : world,
             consistent wait TRAILING w -> paced wait w ->
             paced wait (run TRAILING es w)).
  { induction es as [|e es' IH]; intros w Hc Hp; [exact Hp |].
    cbn in Hes. apply andb_true_iff in Hes. destruct Hes as (He & Hes').
    change (run TRAILING (e :: es') w) with (run TRAILING es' (step TRAILING w e)).
    apply (IH Hes'); [apply consistent_step, Hc |].
    apply trailing_step_paced; [destruct (is_flush e); [discriminate | reflexivity] | |];
      assumption. }
  apply H; [apply consistent_initial |].
  repeat split; [cbn; lia | intros t []].
Qed.


Lemma leading_step_paced (e : event) (w : world) :
  (forall h this args, fn_throws h this args = false) ->
  is_flush e = false -> is_cancel e = false ->
  consistent wait LEADING w -> paced wait w -> rested wait w ->
  paced wait (step LEADING w e) /\ rested wait (step LEADING w e).
Proof.
  intros Hn Hf Hcan Hc Hp Hr.
  destruct e as [this args | | | | d]; cbn [step]; try discriminate.
  - rewrite (debounced_direct fn_throws this args Hc), Hn, andb_false_r.
    unfold leads. cbn [mode_eqb orb andb fst].
    destruct (leadingCalled (vars w)) eqn:El; cbn [negb orb].
    + split; [| intros _ [=]].
      apply paced_same with (w := w); [exact Hp | reflexivity | cbn; lia |].
      cbn. intros t [<- | []]. cbn. destruct Hp as (_ & Hle & _). lia.
    + split; [| intros _ [=]].
      eapply paced_record with (w := w).
      * exact Hp.
      * cbn. reflexivity.
      * intros Hne. apply Hr; assumption.
      * cbn. lia.
      * cbn. intros t [<- | []]. cbn. lia.
  - split; assumption.
  - rewrite (advance_direct fn_throws d Hc).
    destruct (queue w) as [|t q] eqn:Eq.
    + split.
      * apply paced_same with (w := w); [exact Hp | reflexivity | cbn; lia |].
        cbn. rewrite Eq. intros t [].
      * unfold rested, last_time in *. cbn. intros Hne Hl. specialize (Hr Hne Hl). lia.
    + assert (Hdl : last_time w + wait <= deadline t).
      { apply Hp. rewrite Eq. left; reflexivity. }
      destruct (Nat.leb_spec (deadline t) (now w + d)).
      * unfold fired, trails. cbn [mode_eqb orb andb].
        split.
        -- apply paced_same with (w := w); [exact Hp | reflexivity | cbn; lia |].
           intros u [].
        -- unfold rested, last_time in *. cbn. intros _ _. lia.
      * split.
        -- apply paced_same with (w := w); [exact Hp | reflexivity | cbn; lia |].
           cbn. rewrite Eq. intros u Hu. apply Hp. rewrite Eq. exact Hu.
        -- unfold rested. cbn. intros _ Hl. exfalso.
           destruct Hc as (Hq & _ & Hlead & _). rewrite Eq in Hq.
           destruct q; [| contradiction]. destruct Hq as (Hid & _).
           rewrite Hlead in Hl; [discriminate | rewrite Hid; discriminate | discriminate].
Qed.

(** X3. LEADING mode, [fn] never throwing: as long as neither [flush()] nor
    [cancel()] is used, successive invocations of [fn] are at least [wait]
    apart. *)
Theorem leading_invocations_spaced (es : list event) :
  (forall h this args, fn_throws h this args = false) ->
  forallb (fun e => negb (is_flush e) && negb (is_cancel e)) es = true ->
  apart wait (map (@inv_time Recv Args) (calls (run LEADING es init))) = true.
Proof.
  intros Hn Hes.
  assert (H : forall w : world,
             consistent wait LEADING w -> paced wait w -> rested wait w ->
             paced wait (run LEADING es w)).
  { induction es as [|e es' IH]; intros w Hc Hp Hr; [exact Hp |].
    cbn in Hes. apply andb_true_iff in Hes. destruct Hes as (He & Hes').
    apply andb_true_iff in He. destruct He as (He1 & He2).
    change (run LEADING (e :: es') w) with (run LEADING es' (step LEADING w e)).
    destruct (@leading_step_paced e w Hn) as (Hp' & Hr'); try assumption.
    { destruct (is_flush e); [discriminate | reflexivity]. }
    { destruct (is_cancel e); [discriminate | reflexivity]. }
    apply (IH Hes'); [apply consistent_step, Hc | |]; assumption. }
  apply H; [apply consistent_initial | |].
  - repeat split; [cbn; lia | intros t []].
  - intros Hne. exfalso. apply Hne. reflexivity.
Qed.

(** X5. In TRAILING mode a call never invokes [fn] and never throws, in any
    state of the variables and of the registry; it leaves a handle kept. *)
Theorem trailing_call_is_silent (w : world) (this : Recv) (args : Args) :
  snd (debounced TRAILING this args w) = Normal tt
  /\ calls (fst (debounced TRAILING this args w)) = calls w
  /\ snd (pending (fst (debounced TRAILING this args w))) = Normal true.
Proof.
  destruct w as [n nid q [tid la lt lc] cl].
  destruct tid; unfold_ops; cbn; repeat split.
Qed.

(** X6. In LEADING mode the passing of time never invokes [fn], in any
    reachable state and whatever [fn] does. *)
Theorem leading_timer_is_silent (es : list event) (d : nat) :
  calls (advance d (run LEADING es init)) = calls (run LEADING es init).
Proof.
  pose proof (consistent_reachable fn_throws wait LEADING es) as Hc.
  rewrite (advance_direct fn_throws d Hc).
  destruct (queue (run LEADING es init)) as [|t q]; [reflexivity |].
  destruct (deadline t <=? now (run LEADING es init) + d); reflexivity.
Qed.

End Further.

Section Provenance.
Variables Recv Args : Type.
Variable fn_throws : list (invocation Recv Args) -> option Recv -> option Args -> bool.
Variable wait : nat.
Variable mode : DebounceMode.

#[local] Abbreviation world := (world Recv Args).
#[local] Abbreviation event := (event Recv Args).
#[local] Abbreviation consistent := (consistent wait mode).
#[local] Abbreviation debounced := (debounced fn_throws wait mode).
#[local] Abbreviation flush := (@flush Recv Args fn_throws).
#[local] Abbreviation cancel := (@cancel Recv Args).
#[local] Abbreviation pending := (@pending Recv Args).
#[local] Abbreviation advance := (@advance Recv Args fn_throws).
#[local] Abbreviation step := (step fn_throws wait mode).
#[local] Abbreviation run := (run fn_throws wait mode).
#[local] Abbreviation init := (@initial_world Recv Args).

(** What one step adds to the record was invoked with the receiver and
    arguments recorded after the step, and these are set. *)
Lemma step_invocations (e : event) (w : world) (inv : invocation Recv Args) :
  consistent w ->
  In inv (calls (step w e)) ->
  In inv (calls w)
  \/ (inv_this inv = lastThis (vars (step w e))
      /\ inv_args inv = lastArgs (vars (step w e))
      /\ lastArgs (vars (step w e)) <> None).
Proof.
  intros Hc. destruct e as [this args | | | | d]; cbn [step].
  - rewrite (debounced_direct fn_throws this args Hc).
    destruct (leads mode w && fn_throws (calls w) (Some this) (Some args)); cbn.
    + intros Hin. apply in_app_or in Hin. destruct Hin as [Hin | [<- | []]]; [auto |].
      right. cbn. repeat split. discriminate.
    + destruct (leads mode w); [| auto].
      intros Hin. apply in_app_or in Hin. destruct Hin as [Hin | [<- | []]]; [auto |].
      right. cbn. repeat split. discriminate.
  - rewrite (cancel_direct Hc). auto.
  - rewrite (flush_direct fn_throws Hc).
    destruct (timeoutId (vars w)) eqn:E; [| auto]. cbn.
    intros Hin. apply in_app_or in Hin. destruct Hin as [Hin | [<- | []]]; [auto |].
    right. cbn. repeat split. apply Hc. rewrite E. discriminate.
  - auto.
  - rewrite (advance_direct fn_throws d Hc).
    destruct (queue w) as [|t q] eqn:Eq; [auto |].
    destruct (deadline t <=? now w + d); [| auto].
    unfold fired. cbn. destruct (trails mode); cbn; [| auto].
    intros Hin. apply in_app_or in Hin. destruct Hin as [Hin | [<- | []]]; [auto |].
    right. cbn.
    assert (Ha : lastArgs (vars w) <> None).
    { destruct Hc as (Hq & Ha & _). apply Ha. rewrite Eq in Hq.
      destruct q; [| contradiction]. destruct Hq as (-> & _). discriminate. }
    destruct (fn_throws (calls w) (lastThis (vars w)) (lastArgs (vars w)));
      repeat split; assumption.
Qed.

Lemma latest_from (es : list event) :
  forall (acc : option (Recv * Args)) (this : Recv) (args : Args),
    fold_left
      (fun acc e => match e with Call this args => Some (this, args) | _ => acc end)
      es acc = Some (this, args) ->
    acc = Some (this, args) \/ In (Call this args) es.
Proof.
  induction es as [|e es IH]; intros acc this args H; [left; exact H |].
  cbn [fold_left] in H. destruct (IH _ _ _ H) as [Hacc | Hin].
  - destruct e; try (left; exact Hacc).
    injection Hacc as -> ->. right. left. reflexivity.
  - right. right. exact Hin.
Qed.

(** X1. Every invocation of [fn], in any reachable state and whoever made it
    (a call, the timer or [flush()]), carries the receiver and the arguments
    of a call made before: [fn.apply] never sees the initial [null]s. *)
Theorem invocations_come_from_calls (es : list event) (inv : invocation Recv Args) :
  In inv (calls (run es init)) ->
  exists this args,
    inv_this inv = Some this /\ inv_args inv = Some args /\ In (Call this args) es.
Proof.
  revert inv. induction es as [|e es IH] using rev_ind; intros inv Hin; [destruct Hin |].
  assert (Hrun : run (es ++ [e]) init = step (run es init) e).
  { unfold run. rewrite fold_left_app. reflexivity. }
  rewrite Hrun in Hin.
  destruct (@step_invocations e (run es init) inv (consistent_reachable _ _ _ es) Hin)
    as [Hold | (Hthis & Hargs & Hset)].
  - destruct (IH inv Hold) as (this & args & H1 & H2 & H3).
    exists this, args. repeat split; try assumption. apply in_or_app. left. exact H3.
  - rewrite <- Hrun in Hthis, Hargs, Hset.
    destruct (recorded_latest fn_throws wait mode (es ++ [e])) as (Lthis & Largs).
    rewrite Lthis in Hthis. rewrite Largs in Hargs, Hset.
    destruct (latest (es ++ [e])) as [[this args]|] eqn:El; [| cbn in Hset; congruence].
    exists this, args. repeat split; try assumption.
    destruct (@latest_from (es ++ [e]) None this args El) as [[=] | H]; exact H.
Qed.

(** X7. TRAILING or BOTH mode: when [fn] throws in the invocation made by the
    timer, the callback ends before its two resets.  The variables are what
    they were: the handle of the timer that ran is still kept, so [pending()]
    answers true though no timer is registered and time alone invokes nothing
    more; [flush()] then invokes [fn] once more with the same receiver and
    arguments; and the next call invokes nothing at once (in BOTH mode the
    leading edge is skipped), returns and registers a new timer. *)
Theorem throwing_timer_leaves_stale_handle (es : list event) (d : nat) (t : timer) :
  let w := run es init in
  queue w = [t] ->
  deadline t <= now w + d ->
  trails mode = true ->
  fn_throws (calls w) (lastThis (vars w)) (lastArgs (vars w)) = true ->
  let wd := advance d w in
  calls wd = calls w ++ [mkInvocation (deadline t) (lastThis (vars w)) (lastArgs (vars w))]
  /\ queue wd = []
  /\ vars wd = vars w
  /\ snd (pending wd) = Normal true
  /\ (forall d', calls (advance d' wd) = calls wd)
  /\ calls (fst (flush wd)) =
       calls wd ++ [mkInvocation (now w + d) (lastThis (vars w)) (lastArgs (vars w))]
  /\ (forall this args,
        snd (debounced this args wd) = Normal tt
        /\ calls (step wd (Call this args)) = calls wd
        /\ exists t', queue (step wd (Call this args)) = [t']
                      /\ deadline t' = now w + d + wait).
Proof.
  intros w Hq Hdue Htr Hthrow wd.
  assert (Hc : consistent w) by apply consistent_reachable.
  assert (Hcd : consistent wd) by apply consistent_advance, Hc.
  assert (Ewd : wd =
    {| now := now w + d; next_id := next_id w; queue := []; vars := vars w;
       calls := calls w ++
                [mkInvocation (deadline t) (lastThis (vars w)) (lastArgs (vars w))] |}).
  { subst wd. rewrite (advance_direct fn_throws d Hc), Hq.
    destruct (Nat.leb_spec (deadline t) (now w + d)); [| lia].
    unfold fired. rewrite Htr, Hthrow. reflexivity. }
  assert (Hid : timeoutId (vars w) = Some (timer_id t)).
  { destruct Hc as (H & _). rewrite Hq in H. apply H. }
  clearbody wd. subst wd.
  assert (Hlead : (mode_eqb mode LEADING || mode_eqb mode BOTH)
                  && negb (leadingCalled (vars w)) = false).
  { destruct Hc as (_ & _ & Hl & Ht).
    destruct mode; [reflexivity | discriminate Htr |].
    rewrite Hl; [reflexivity | rewrite Hid; discriminate | discriminate]. }
  split; [reflexivity |].
  split; [reflexivity |].
  split; [reflexivity |].
  split; [rewrite pending_direct; cbn; rewrite Hid; reflexivity |].
  split; [intros d'; rewrite (advance_direct fn_throws d' Hcd); reflexivity |].
  split.
  { rewrite (flush_direct fn_throws Hcd). cbn. rewrite Hid. reflexivity. }
  intros this args. cbn [step].
  rewrite (debounced_direct fn_throws this args Hcd). unfold leads. cbn.
  rewrite Hlead. cbn.
  split; [reflexivity |]. split; [reflexivity |].
  eexists. split; reflexivity.
Qed.

(** X8. After [flush()], whether it invoked [fn] or not and whether [fn]
    threw or not, a second [flush()] does nothing, [cancel()] invokes nothing
    and the passing of time invokes nothing; after [cancel()], [flush()] does
    nothing. *)
Theorem flush_and_cancel_are_final (es : list event) :
  let w := run es init in
  let wf := fst (flush w) in
  let wc := fst (cancel w) in
  flush wf = (wf, Normal tt)
  /\ flush wc = (wc, Normal tt)
  /\ calls (fst (cancel wf)) = calls wf
  /\ (forall d, calls (advance d wf) = calls wf).
Proof.
  intros w wf wc.
  assert (Hc : consistent w) by apply consistent_reachable.
  assert (Hcf : consistent wf) by apply consistent_flush, Hc.
  assert (Hcc : consistent wc) by apply consistent_cancel, Hc.
  assert (Hf : timeoutId (vars wf) = None /\ queue wf = []).
  { subst wf. rewrite (flush_direct fn_throws Hc).
    destruct (timeoutId (vars w)) eqn:E; cbn; [split; reflexivity |].
    split; [exact E |]. destruct Hc as (Hq & _).
    destruct (queue w) as [|t [|u q]]; [reflexivity | | contradiction].
    destruct Hq as (Hid & _). congruence. }
  destruct Hf as (Hfid & Hfq).
  split; [rewrite (flush_direct fn_throws Hcf), Hfid; reflexivity |].
  split.
  { rewrite (flush_direct fn_throws Hcc). subst wc. rewrite (cancel_direct Hc).
    reflexivity. }
  split; [rewrite (cancel_direct Hcf); reflexivity |].
  intros d. rewrite (advance_direct fn_throws d Hcf), Hfq. reflexivity.
Qed.

(** X9. In any mode and any reachable state, a call that returns leaves
    exactly one timer registered, newly created, due [wait] after the call,
    with its handle kept and the call's receiver and arguments recorded; the
    timer invokes nothing before [wait] has passed. *)
Theorem returning_call_rearms (es : list event) (this : Recv) (args : Args) :
  let w := run es init in
  snd (debounced this args w) = Normal tt ->
  let w' := fst (debounced this args w) in
  (exists t, queue w' = [t]
             /\ timer_id t = next_id w
             /\ deadline t = now w + wait
             /\ timeoutId (vars w') = Some (timer_id t))
  /\ lastThis (vars w') = Some this
  /\ lastArgs (vars w') = Some args
  /\ (forall d, d < wait -> calls (advance d w') = calls w').
Proof.
  intros w Hret w'.
  assert (Hc : consistent w) by apply consistent_reachable.
  assert (Hc' : consistent w') by apply consistent_debounced, Hc.
  assert (Ew : debounced this args w =
    ({| now := now w; next_id := Pos.succ (next_id w);
        queue := [mkTimer (next_id w) (now w + wait) (leads mode w) (trails mode)];
        vars := {| timeoutId := Some (next_id w); lastArgs := Some args;
                   lastThis := Some this;
                   leadingCalled := leads mode w || leadingCalled (vars w) |};
        calls := if leads mode w
                 then calls w ++ [mkInvocation (now w) (Some this) (Some args)]
                 else calls w |}, Normal tt)).
  { rewrite (debounced_direct fn_throws this args Hc) in *.
    destruct (leads mode w && fn_throws (calls w) (Some this) (Some args));
      [discriminate Hret | reflexivity]. }
  split; [subst w'; rewrite Ew; eexists; repeat split |].
  split; [subst w'; rewrite Ew; reflexivity |].
  split; [subst w'; rewrite Ew; reflexivity |].
  intros d Hd. rewrite (advance_direct fn_throws d Hc'). subst w'. rewrite Ew. cbn.
  destruct (Nat.leb_spec (now w + wait) (now w + d)); [lia | reflexivity].
Qed.

Lemma committed_step (e : event) (w : world) (n : nat) :
  is_flush e = false ->
  consistent w ->
  committed mode w <= per_call mode * n ->
  committed mode (step w e) <= per_call mode * (n + if is_call e then 1 else 0).
Proof.
  intros He Hc Hb. unfold committed in *.
  assert (Hq : List.length (queue w) <= 1).
  { destruct Hc as (Hq & _).
    destruct (queue w) as [|t [|u q]]; cbn; [lia | lia | contradiction]. }
  destruct e as [this args | | | | d]; cbn [step is_call]; try discriminate.
  - rewrite (debounced_direct fn_throws this args Hc).
    destruct (leads mode w) eqn:El; cbn [andb].
    + assert (Hm : mode <> TRAILING).
      { intros ->. discriminate El. }
      assert (Hempty : queue w = []).
      { destruct Hc as (Ht & _ & Hlead & _).
        destruct (queue w) as [|t [|u q]]; [reflexivity | | contradiction].
        destruct Ht as (Hid & _). unfold leads in El.
        rewrite Hlead in El; [| rewrite Hid; discriminate | exact Hm].
        rewrite andb_false_r in El. discriminate. }
      rewrite Hempty in Hb. cbn in Hb.
      destruct (fn_throws (calls w) (Some this) (Some args)); cbn;
        rewrite length_app; cbn; destruct mode; cbn in *; try congruence; lia.
    + cbn. destruct mode; cbn in *; lia.
  - rewrite (cancel_direct Hc). cbn. destruct (trails mode); lia.
  - cbn. rewrite Nat.add_0_r. exact Hb.
  - rewrite (advance_direct fn_throws d Hc). rewrite Nat.add_0_r.
    destruct (queue w) as [|t q] eqn:Eq; [cbn; rewrite Eq; exact Hb |].
    destruct (deadline t <=? now w + d); [| cbn; rewrite Eq; exact Hb].
    unfold fired. cbn. destruct (trails mode); [| exact Hb].
    rewrite length_app. cbn in *. lia.
Qed.

(** X4. Without [flush()], [fn] is invoked at most once per call, twice in
    BOTH mode, whatever [fn] does. *)
Theorem invocations_bounded_by_calls (es : list event) :
  forallb (fun e => negb (is_flush e)) es = true ->
  List.length (calls (run es init)) <= per_call mode * count_calls es.
Proof.
  intros Hes.
  assert (H : forall (w : world) (n : nat),
             consistent w ->
             committed mode w <= per_call mode * n ->
             committed mode (run es w) <= per_call mode * (n + count_calls es)).
  { induction es as [|e es' IH]; intros w n Hc Hb.
    - cbn. rewrite Nat.add_0_r. exact Hb.
    - cbn in Hes. apply andb_true_iff in Hes. destruct Hes as (He & Hes').
      change (run (e :: es') w) with (run es' (step w e)).
      assert (Hf : is_flush e = false)
        by (destruct (is_flush e); [discriminate | reflexivity]).
      pose proof (@committed_step e w n Hf Hc Hb) as Hstep.
      pose proof (IH Hes' _ _ (consistent_step fn_throws e Hc) Hstep) as Hrun.
      unfold count_calls in *. cbn [filter].
      destruct (is_call e); cbn [List.length]; [| rewrite Nat.add_0_r in Hrun; exact Hrun].
      replace (n + S (List.length (filter (@is_call Recv Args) es')))
        with (n + 1 + List.length (filter (@is_call Recv Args) es')) by lia.
      exact Hrun. }
  assert (H0 : committed mode init <= per_call mode * 0).
  { unfold committed. cbn. destruct (trails mode); lia. }
  pose proof (H init 0 (consistent_initial Recv Args wait mode) H0) as Hb.
  unfold committed in Hb. cbn [Nat.add] in Hb. lia.
Qed.

End Provenance.

Section Overloads.
Variables Recv Args : Type.
#[local] Abbreviation debounce := (debounce Recv Args).

(** X10. The two forms of the third argument agree: an object whose [mode]
    property is a string is treated as that string given bare, and an object
    without a [mode] property (or with a null or undefined one), [undefined]
    and [null] are treated as the string of TRAILING.  This holds for the
    failures as well as for the controller returned. *)
Theorem options_form_agrees_with_bare_form
    (fn wait : JS.value) (c : bool) (props : list (string * JS.value)) :
  (forall s, JS.own_property "mode" props = Some (JS.String s) ->
             debounce fn wait (JS.Object c props) = debounce fn wait (JS.String s))
  /\ (forall m, JS.own_property "mode" props = Some m -> JS.nullish m = true ->
                debounce fn wait (JS.Object c props) =
                debounce fn wait (JS.String (mode_string TRAILING)))
  /\ (JS.own_property "mode" props = None ->
      debounce fn wait (JS.Object c props) =
      debounce fn wait (JS.String (mode_string TRAILING)))
  /\ debounce fn wait JS.Undefined = debounce fn wait (JS.String (mode_string TRAILING))
  /\ debounce fn wait JS.Null = debounce fn wait (JS.String (mode_string TRAILING)).
Proof.
  assert (Hdep : forall a b,
            resolved_mode a = resolved_mode b ->
            debounce fn wait a = debounce fn wait b).
  { intros a b E. rewrite !debounce_unfold, E. reflexivity. }
  split; [| split; [| split; [| split]]]; try (apply Hdep; reflexivity).
  - intros s Hs. apply Hdep. unfold resolved_mode.
    destruct c; cbn; rewrite Hs; reflexivity.
  - intros m Hm Hn. apply Hdep. unfold resolved_mode.
    destruct c; cbn; rewrite Hm; unfold JS.coalesce; rewrite Hn; reflexivity.
  - intros Hm. apply Hdep. unfold resolved_mode.
    destruct c; cbn; rewrite Hm; reflexivity.
Qed.

End Overloads.

(** * Worked examples *)

(** C1 at work: wait 100, TRAILING, a call and a second one 50 ms later;
    nothing is invoked before 100 ms have passed since the second call, and
    then [fn] is invoked once with its arguments. *)
Lemma trailing_chain_example :
  let w0 := run never_throws 100 TRAILING [] initial_world in
  let wn := run never_throws 100 TRAILING (Call tt 1 :: burst [(50, (tt, 2))]) w0 in
  Forall (fun c : nat * (unit * nat) => fst c < 100) [(50, (tt, 2))]
  /\ (forall d, d < 100 -> calls (advance never_throws d wn) = calls w0)
  /\ (forall d, 100 <= d ->
        calls (advance never_throws d wn) =
          calls w0 ++ [mkInvocation (now wn + 100) (Some tt) (Some 2)]).
Proof.
  assert (H : Forall (fun c : nat * (unit * nat) => fst c < 100) [(50, (tt, 2))]).
  { constructor; [exact (proj1 (Nat.ltb_lt 50 100) eq_refl) | constructor]. }
  pose proof (@trailing_chain_invokes_once unit nat never_throws 100 []
                (tt, 1) [(50, (tt, 2))] H) as T.
  exact (conj H (conj (proj1 (proj2 T)) (proj1 (proj2 (proj2 T))))).
Defined.

(** C2 at work: wait 100, BOTH, a call and a second one 50 ms later: one
    invocation at the first call with its arguments, one 100 ms after the
    second call with the second call's. *)
Lemma both_burst_example :
  let w0 := run never_throws 100 BOTH [] initial_world in
  let w1 := step never_throws 100 BOTH w0 (Call tt 1) in
  let wn := run never_throws 100 BOTH (burst [(50, (tt, 2))]) w1 in
  leadingCalled (vars w0) = false
  /\ never_throws (calls w0) (Some tt) (Some 1) = false
  /\ Forall (fun c : nat * (unit * nat) => fst c < 100) [(50, (tt, 2))]
  /\ calls w1 = calls w0 ++ [mkInvocation (now w0) (Some tt) (Some 1)]
  /\ (forall d, 100 <= d ->
        calls (advance never_throws d wn) =
          calls w1 ++ [mkInvocation (now wn + 100) (Some tt) (Some 2)]).
Proof.
  assert (H : Forall (fun c : nat * (unit * nat) => fst c < 100) [(50, (tt, 2))]).
  { constructor; [exact (proj1 (Nat.ltb_lt 50 100) eq_refl) | constructor]. }
  pose proof (@both_burst_invokes_twice unit nat never_throws 100 []
                (tt, 1) [(50, (tt, 2))] eq_refl eq_refl H) as T.
  exact (conj eq_refl (conj eq_refl (conj H
           (conj (proj1 T) (proj1 (proj2 (proj2 (proj2 T)))))))).
Defined.

(** C2: BOTH mode, a wrapped function that returns the first time and throws
    afterwards.  A call and 100 ms: the trailing invocation throws, and
    [leadingCalled] stays set with no timer registered.  The next burst, a
    single call, invokes nothing at its call and [fn] once, 100 ms after it:
    one invocation, not two. *)
Lemma both_burst_after_throwing_timer :
  let w0 := run throws_after_first 100 BOTH [Call tt 1; Advance 100] initial_world in
  let w1 := step throws_after_first 100 BOTH w0 (Call tt 2) in
  queue w0 = []
  /\ calls w0 = [mkInvocation 0 (Some tt) (Some 1); mkInvocation 100 (Some tt) (Some 1)]
  /\ calls w1 = calls w0
  /\ calls (advance throws_after_first 100 w1) =
       calls w0 ++ [mkInvocation 200 (Some tt) (Some 2)]
  /\ calls (advance throws_after_first 1000 w1) =
       calls w0 ++ [mkInvocation 200 (Some tt) (Some 2)].
Proof. vm_compute. repeat split. Qed.

(** C3 at work: wait 100, LEADING, three calls at the same instant: one
    invocation; from 100 ms on nothing has been added, and a new call invokes
    [fn] at once. *)
Lemma leading_burst_example :
  let w0 := run never_throws 100 LEADING [] initial_world in
  let w1 := step never_throws 100 LEADING w0 (Call tt 1) in
  let wn := run never_throws 100 LEADING (burst [(0, (tt, 2)); (0, (tt, 3))]) w1 in
  leadingCalled (vars w0) = false
  /\ never_throws (calls w0) (Some tt) (Some 1) = false
  /\ Forall (fun c : nat * (unit * nat) => fst c < 100) [(0, (tt, 2)); (0, (tt, 3))]
  /\ calls w1 = calls w0 ++ [mkInvocation (now w0) (Some tt) (Some 1)]
  /\ calls wn = calls w1
  /\ (forall d, 100 <= d ->
        calls (advance never_throws d wn) = calls w1
        /\ forall this args,
             calls (step never_throws 100 LEADING (advance never_throws d wn)
                         (Call this args)) =
               calls w1 ++ [mkInvocation (now wn + d) (Some this) (Some args)]).
Proof.
  assert (H : Forall (fun c : nat * (unit * nat) => fst c < 100)
                     [(0, (tt, 2)); (0, (tt, 3))]).
  { constructor; [exact (proj1 (Nat.ltb_lt 0 100) eq_refl) |].
    constructor; [exact (proj1 (Nat.ltb_lt 0 100) eq_refl) | constructor]. }
  pose proof (@leading_burst_invokes_first_only unit nat never_throws 100 []
                (tt, 1) [(0, (tt, 2)); (0, (tt, 3))] eq_refl eq_refl H) as T.
  refine (conj eq_refl (conj eq_refl (conj H (conj (proj1 T) (conj _ _))))).
  - exact (proj1 (proj2 T) 4).
  - intros d Hd.
    destruct (proj2 (proj2 (proj2 (proj2 T))) d Hd) as (T1 & _ & _ & _ & T2).
    exact (conj T1 T2).
Defined.

(** C4: calling [debounce(fn, 100, 42)] returns a TRAILING controller, although
    the number 42 is neither a mode nor an options object. *)
Lemma number_as_mode_is_accepted :
  let fn := JS.Object true [] in
  let wait := JS.Number (JS.Finite 100) in
  let modeOrOptions := JS.Number (JS.Finite 42) in
  specified_invalid fn wait modeOrOptions = true
  /\ debounce unit nat fn wait modeOrOptions =
       inr {| c_fn := fn; c_wait := wait; c_mode := JS.String "trailing";
              c_state := initial_state |}.
Proof. split; reflexivity. Qed.

(** C4 (amended) at work: [debounce(fn)] yields wait 0 and TRAILING, and
    [debounce(fn, -1)] is refused for its wait. *)
Lemma debounce_defaults_example :
  let fn := JS.Object true [] in
  (forall c, debounce unit nat fn JS.Undefined JS.Undefined = inr c ->
             c_wait c = JS.Number (JS.Finite 0)
             /\ c_mode c = JS.String "trailing"
             /\ c_state c = initial_state)
  /\ debounce unit nat fn (JS.Number (JS.Finite (-1))) JS.Undefined =
       inl (MkTypeError "Expected wait to be a non-negative number").
Proof.
  intros fn.
  pose proof (@debounce_validates unit nat fn JS.Undefined JS.Undefined) as T.
  pose proof (@debounce_validates unit nat fn (JS.Number (JS.Finite (-1))) JS.Undefined)
    as U.
  split.
  - intros c Hc.
    destruct (proj2 (proj2 (proj2 (proj2 T))) c Hc) as (_ & Hs & Hw & _ & _ & Hm).
    split; [exact Hw |]. split; [| exact Hs].
    apply Hm. intros m Hsup. inversion Hsup.
  - apply (proj1 (proj2 (proj2 U))).
    + exists []. reflexivity.
    + constructor. reflexivity.
Defined.

(** C5: in LEADING mode, with a wrapped function that throws from its second
    call on, a call followed by [flush()] leaves [leadingCalled] true with no
    timer registered and no handle kept. *)
Lemma leading_flag_outlives_failed_flush :
  let w := run throws_after_first 100 LEADING [Call tt 1; Flush] initial_world in
  leadingCalled (vars w) = true
  /\ timeoutId (vars w) = None
  /\ queue w = []
  /\ snd (pending w) = Normal false.
Proof. vm_compute. repeat split. Qed.

(** C5 (amended) at work, with a wrapped function that never throws: after a
    call and [flush()] in LEADING mode the flag is clear. *)
Lemma controller_invariants_example :
  let w := run never_throws 100 LEADING [Call tt 1] initial_world in
  (forall h this args, never_throws h this args = false)
  /\ leadingCalled (vars w) = true
  /\ leadingCalled (vars (fst (flush never_throws w))) = false.
Proof.
  pose proof (@controller_invariants unit nat never_throws 100 LEADING [Call tt 1]) as T.
  assert (Hn : forall h this args, never_throws h this args = false)
    by (intros; reflexivity).
  pose proof (proj2 (proj2 (proj2 T)) Hn) as T'.
  split; [exact Hn |]. split; [reflexivity |].
  by_instance (proj1 (proj2 (proj2 T'))).
Defined.

(** C6 at work: a call with argument 7, then [flush()]: [fn] is invoked at
    once with 7 and nothing is pending. *)
Lemma flush_example :
  let w := run never_throws 100 TRAILING [Call tt 7] initial_world in
  snd (pending w) = Normal true
  /\ calls (fst (flush never_throws w)) = [mkInvocation 0 (Some tt) (Some 7)]
  /\ snd (pending (fst (flush never_throws w))) = Normal false
  /\ leadingCalled (vars (fst (flush never_throws w))) = false.
Proof.
  pose proof (@flush_invokes_iff_pending unit nat never_throws 100 TRAILING [Call tt 7])
    as T.
  pose proof (proj2 T eq_refl) as T'.
  split; [reflexivity |].
  destruct T' as ((this & args & Hlatest & Hcalls) & _ & Hp & _ & Hflag).
  injection Hlatest as <- <-.
  split; [by_instance Hcalls |]. split; [by_instance Hp |].
  by_instance (Hflag eq_refl).
Defined.

(** C7 at work: LEADING mode, a call, [cancel()], then a call 10 ms later:
    the second call invokes [fn] at once. *)
Lemma cancel_example :
  let w := run never_throws 100 LEADING [Call tt 1] initial_world in
  LEADING <> TRAILING
  /\ calls (step never_throws 100 LEADING
              (advance never_throws 10 (fst (cancel w))) (Call tt 2)) =
       [mkInvocation 0 (Some tt) (Some 1); mkInvocation 10 (Some tt) (Some 2)].
Proof.
  pose proof (@cancel_releases_without_invoking unit nat never_throws 100 LEADING
                [Call tt 1]) as T.
  assert (Hm : LEADING <> TRAILING) by discriminate.
  split; [exact Hm |].
  by_instance (proj2 (proj2 (proj2 (proj2 (proj2 (proj2 (proj2 T)))))) Hm 10 tt 2).
Defined.

(** C8 at work: TRAILING mode, wait 100: pending right after a call, not
    pending once 100 ms have passed. *)
Lemma pending_example :
  let w := run never_throws 100 TRAILING [Call tt 1] initial_world in
  snd (pending w) = Normal true
  /\ snd (pending (advance never_throws 100 w)) = Normal false.
Proof.
  pose proof (@pending_reports_handle unit nat never_throws 100 TRAILING []) as T.
  pose proof (@pending_reports_handle unit nat never_throws 100 TRAILING [Call tt 1]) as U.
  split.
  - by_instance (proj2 (proj1 (proj2 (proj2 (proj2 T))) tt 1 eq_refl)).
  - by_instance (proj1 (proj2 (proj2 (proj2 (proj2 U)))) 100
                   (mkTimer 1 100 false true) eq_refl (le_n 100) eq_refl).
Defined.

(** C8: TRAILING mode, a wrapped function that throws: after a call and
    100 ms the timer has run and is no longer registered, yet [pending()]
    answers true. *)
Lemma pending_after_throwing_timer :
  let w := run always_throws 100 TRAILING [Call tt 1; Advance 100] initial_world in
  calls w = [mkInvocation 100 (Some tt) (Some 1)]
  /\ queue w = []
  /\ snd (pending w) = Normal true.
Proof. vm_compute. repeat split. Qed.

(** C9 at work: LEADING mode, a wrapped function that always throws: the
    first call throws and leaves nothing pending, and so does the second,
    which invokes [fn] again. *)
Lemma throwing_leading_edge_example :
  let w' := fst (debounced always_throws 100 LEADING tt 1 initial_world) in
  LEADING <> TRAILING
  /\ snd (debounced always_throws 100 LEADING tt 1 initial_world) = Thrown
  /\ snd (pending w') = Normal false
  /\ leadingCalled (vars w') = false
  /\ calls (step always_throws 100 LEADING w' (Call tt 2)) =
       [mkInvocation 0 (Some tt) (Some 1); mkInvocation 0 (Some tt) (Some 2)].
Proof.
  assert (Hm : LEADING <> TRAILING) by discriminate.
  pose proof (@throwing_leading_edge unit nat always_throws 100 LEADING
                initial_world tt 1 Hm eq_refl eq_refl) as T.
  split; [exact Hm |].
  split; [by_instance (proj1 T) |].
  split; [by_instance (proj1 (proj2 (proj2 (proj2 (proj2 T))))) |].
  split; [by_instance (proj1 (proj2 (proj2 (proj2 (proj2 (proj2 (proj2 (proj2 T)))))))) |].
  by_instance (proj2 (proj2 (proj2 (proj2 (proj2 (proj2 (proj2 (proj2 T))))))) tt 2).
Defined.

(** C10 at work: LEADING mode, a wrapped function that throws from its second
    call on: a call, then [flush()] throws, nothing is pending, the flag stays
    set and the next call invokes nothing. *)
Lemma throwing_flush_example :
  let w := run throws_after_first 100 LEADING [Call tt 1] initial_world in
  let w' := fst (flush throws_after_first w) in
  snd (pending w) = Normal true
  /\ snd (flush throws_after_first w) = Thrown
  /\ snd (pending w') = Normal false
  /\ leadingCalled (vars w') = true
  /\ calls (step throws_after_first 100 LEADING w' (Call tt 2)) = calls w'.
Proof.
  assert (Hm : LEADING <> TRAILING) by discriminate.
  pose proof (@throwing_flush_keeps_leading_flag unit nat throws_after_first 100 LEADING
                [Call tt 1] eq_refl eq_refl) as T.
  pose proof (proj2 (proj2 (proj2 (proj2 (proj2 T)))) Hm) as T'.
  split; [reflexivity |].
  split; [by_instance (proj1 T) |].
  split; [by_instance (proj1 (proj2 (proj2 (proj2 T)))) |].
  split; [by_instance (proj1 T') |].
  by_instance (proj2 T' tt 2).
Defined.

(** X1 at work: a call with 7 followed by [flush()]. *)
Lemma invocations_come_from_calls_example :
  let es := [Call tt 7; Flush] in
  let inv := mkInvocation 0 (Some tt) (Some 7) in
  In inv (calls (run never_throws 100 BOTH es initial_world))
  /\ exists this args,
       inv_this inv = Some this /\ inv_args inv = Some args /\ In (Call this args) es.
Proof.
  assert (H : In (mkInvocation 0 (Some tt) (Some 7))
                 (calls (run never_throws 100 BOTH [Call tt 7; Flush] initial_world))).
  { left. reflexivity. }
  exact (conj H (@invocations_come_from_calls unit nat never_throws 100 BOTH
                   [Call tt 7; Flush] _ H)).
Defined.

(** X2 at work. *)
Lemma trailing_invocations_spaced_example :
  let es := [Call tt 1; Advance 100; Call tt 2; Cancel; Call tt 3; Advance 250] in
  forallb (fun e : event unit nat => negb (is_flush e)) es = true
  /\ apart 100 (map (@inv_time unit nat)
                    (calls (run always_throws 100 TRAILING es initial_world))) = true.
Proof.
  exact (conj eq_refl
          (@trailing_invocations_spaced unit nat always_throws 100
             [Call tt 1; Advance 100; Call tt 2; Cancel; Call tt 3; Advance 250]
             eq_refl)).
Defined.

(** X3 at work. *)
Lemma leading_invocations_spaced_example :
  let es := [Call tt 1; Advance 40; Call tt 2; Advance 100; Call tt 3] in
  (forall h this args, never_throws h this args = false)
  /\ forallb (fun e : event unit nat => negb (is_flush e) && negb (is_cancel e)) es = true
  /\ apart 100 (map (@inv_time unit nat)
                    (calls (run never_throws 100 LEADING es initial_world))) = true.
Proof.
  exact (conj (fun _ _ _ => eq_refl) (conj eq_refl
          (@leading_invocations_spaced unit nat never_throws 100
             [Call tt 1; Advance 40; Call tt 2; Advance 100; Call tt 3]
             (fun _ _ _ => eq_refl) eq_refl))).
Defined.

(** X4 at work. *)
Lemma invocations_bounded_by_calls_example :
  let es := [Call tt 1; Advance 100; Call tt 2; Cancel] in
  forallb (fun e : event unit nat => negb (is_flush e)) es = true
  /\ List.length (calls (run throws_after_first 100 BOTH es initial_world))
     <= per_call BOTH * count_calls es.
Proof.
  exact (conj eq_refl
          (@invocations_bounded_by_calls unit nat throws_after_first 100 BOTH
             [Call tt 1; Advance 100; Call tt 2; Cancel] eq_refl)).
Defined.

(** X7 at work: TRAILING mode, a wrapped function that always throws, one call
    and 100 ms. *)
Lemma throwing_timer_example :
  let w := run always_throws 100 TRAILING [Call tt 1] initial_world in
  let t := mkTimer 1 100 false true in
  let wd := advance always_throws 100 w in
  queue w = [t]
  /\ deadline t <= now w + 100
  /\ always_throws (calls w) (lastThis (vars w)) (lastArgs (vars w)) = true
  /\ queue wd = []
  /\ snd (pending wd) = Normal true
  /\ vars wd = vars w.
Proof.
  pose proof (@throwing_timer_leaves_stale_handle unit nat always_throws 100 TRAILING
                [Call tt 1] 100 (mkTimer 1 100 false true)
                eq_refl (le_n 100) eq_refl eq_refl) as T.
  exact (conj eq_refl (conj (le_n 100) (conj eq_refl
          (conj (proj1 (proj2 T))
             (conj (proj1 (proj2 (proj2 (proj2 T)))) (proj1 (proj2 (proj2 T)))))))).
Defined.

(** X9 at work. *)
Lemma returning_call_rearms_example :
  let w := run never_throws 100 BOTH [Call tt 1; Advance 30] initial_world in
  let w' := fst (debounced never_throws 100 BOTH tt 2 w) in
  snd (debounced never_throws 100 BOTH tt 2 w) = Normal tt
  /\ exists t, queue w' = [t]
               /\ timer_id t = next_id w
               /\ deadline t = now w + 100
               /\ timeoutId (vars w') = Some (timer_id t).
Proof.
  exact (conj eq_refl
          (proj1 (@returning_call_rearms unit nat never_throws 100 BOTH
                    [Call tt 1; Advance 30] tt 2 eq_refl))).
Defined.

(** X10 at work: [{ mode: "leading" }] against ["leading"]. *)
Lemma options_form_example :
  let fn := JS.Object true [] in
  let wait := JS.Number (JS.Finite 100) in
  JS.own_property "mode" [("mode"%string, JS.String "leading")] = Some (JS.String "leading")
  /\ debounce unit nat fn wait (JS.Object false [("mode"%string, JS.String "leading")]) =
     debounce unit nat fn wait (JS.String "leading").
Proof.
  exact (conj eq_refl
          (proj1 (@options_form_agrees_with_bare_form unit nat (JS.Object true [])
                    (JS.Number (JS.Finite 100)) false
                    [("mode"%string, JS.String "leading")])
                 "leading"%string eq_refl)).
Defined.
